(** * CacheQueue: a fixed-size ring queue (cachequeue.hpp)

    Shallow embedding of [template<typename ValueType, size_t CacheSize>
    class CacheQueue] and the properties of its push/pop/rotate/index
    operations.

    Conventions of the embedding:
    - [size_t] values are integers in [0, 2^64); every [+] and [-] of the
      source on [size_t] is written with its wrap-around ([SizeT.add],
      [SizeT.sub]); [%] by zero and an out-of-range array access are
      undefined in C++ and are [None] here;
    - [int] is the 32-bit two's complement integer; [std::abs] on it wraps;
    - the backing [std::array] is a [list A]; its size is the capacity. *)

From stdpp Require Import base tactics option list numbers.

Local Open Scope Z_scope.

(** ** Machine integers *)

Module SizeT.
Definition modulus : Z := 2 ^ 64.
Definition wrap (z : Z) : Z := z mod modulus.
Definition add (a b : Z) : Z := wrap (a + b).
Definition sub (a b : Z) : Z := wrap (a - b).
(** [a % n]; undefined for [n = 0]. *)
Definition rem (a n : Z) : option Z :=
  if decide (n = 0) then None else Some (a mod n).
End SizeT.

Module Int.
Definition min_signed : Z := - 2 ^ 31.
Definition max_signed : Z := 2 ^ 31 - 1.
Definition in_range (z : Z) : Prop := min_signed ≤ z ≤ max_signed.
Definition wrap (z : Z) : Z := (z + 2 ^ 31) mod 2 ^ 32 - 2 ^ 31.
(** [std::abs<int>] *)
Definition abs (z : Z) : Z := wrap (Z.abs z).
End Int.

(** ** The container *)

Section CacheQueue.
Context {A : Type}.

Record CacheQueue : Type := mkCacheQueue {
  m_CircleQ : list A;
  m_Head : Z;
  m_CurrSize : Z
}.

(** Array subscript [c[i]] as an rvalue and as the target of an assignment. *)
Definition arr_at (c : list A) (i : Z) : option A :=
  if decide (0 ≤ i) then c !! Z.to_nat i else None.

Definition arr_store (c : list A) (i : Z) (v : A) : option (list A) :=
  if decide (0 ≤ i < Z.of_nat (length c)) then Some (<[Z.to_nat i := v]> c)
  else None.

(** [for (auto nIndex = 0; nIndex < nCount; ++nIndex) body] *)
Fixpoint loop (nCount : nat) (body : CacheQueue → option CacheQueue)
    (q : CacheQueue) : option CacheQueue :=
  match nCount with
  | O => Some q
  | S n => q' ← body q; loop n body q'
  end.

(** The constructor: value-initialised storage ([d] in every slot),
    [m_Head(0)], [m_CurrSize(0)]. *)
Definition init (CacheSize : nat) (d : A) : CacheQueue :=
  {| m_CircleQ := replicate CacheSize d; m_Head := 0; m_CurrSize := 0 |}.

Definition Capacity (q : CacheQueue) : Z := Z.of_nat (length (m_CircleQ q)).

(** Modelled from the spec: [Size()] is called by [Length()] but is not
    declared anywhere in cachequeue.hpp; the spec gives [length()] as the
    current element count, which the class keeps in [m_CurrSize]. *)
Definition Size (q : CacheQueue) : Z := m_CurrSize q.

Definition Length (q : CacheQueue) : Z := Size q.

Definition Empty (q : CacheQueue) : bool := bool_decide (m_CurrSize q = 0).

Definition Full (q : CacheQueue) : bool :=
  bool_decide (m_CurrSize q = Capacity q).

Definition Head (q : CacheQueue) : option A :=
  arr_at (m_CircleQ q) (m_Head q).

(** The subscript computed by [Back()]. *)
Definition Back_slot (q : CacheQueue) : option Z :=
  SizeT.rem
    (SizeT.sub (SizeT.add (SizeT.add (m_Head q) (Length q)) (Capacity q)) 1)
    (Capacity q).

Definition Back (q : CacheQueue) : option A :=
  s ← Back_slot q; arr_at (m_CircleQ q) s.

Definition PushHead (q : CacheQueue) (u : A) : option CacheQueue :=
  if Empty q then
    c ← arr_store (m_CircleQ q) 0 u;
    Some {| m_CircleQ := c; m_Head := 0; m_CurrSize := 1 |}
  else
    h ← SizeT.rem (SizeT.sub (SizeT.add (m_Head q) (Capacity q)) 1)
                  (Capacity q);
    c ← arr_store (m_CircleQ q) h u;
    Some {| m_CircleQ := c; m_Head := h;
            m_CurrSize := Z.min (SizeT.add (m_CurrSize q) 1) (Capacity q) |}.

Definition PushBack (q : CacheQueue) (u : A) : option CacheQueue :=
  if Empty q then
    c ← arr_store (m_CircleQ q) 0 u;
    Some {| m_CircleQ := c; m_Head := 0; m_CurrSize := 1 |}
  else if Full q then
    c ← arr_store (m_CircleQ q) (m_Head q) u;
    h ← SizeT.rem (SizeT.add (m_Head q) 1) (Capacity q);
    Some {| m_CircleQ := c; m_Head := h; m_CurrSize := m_CurrSize q |}
  else
    s ← SizeT.rem (SizeT.add (m_Head q) (Length q)) (Capacity q);
    c ← arr_store (m_CircleQ q) s u;
    Some {| m_CircleQ := c; m_Head := m_Head q;
            m_CurrSize := Z.min (SizeT.add (m_CurrSize q) 1) (Capacity q) |}.

Definition PopHead (q : CacheQueue) : option CacheQueue :=
  if negb (Empty q) then
    h ← SizeT.rem (SizeT.add (m_Head q) 1) (Capacity q);
    Some {| m_CircleQ := m_CircleQ q; m_Head := h;
            m_CurrSize := SizeT.sub (m_CurrSize q) 1 |}
  else Some q.

Definition PopBack (q : CacheQueue) : option CacheQueue :=
  if negb (Empty q) then
    Some {| m_CircleQ := m_CircleQ q; m_Head := m_Head q;
            m_CurrSize := SizeT.sub (m_CurrSize q) 1 |}
  else Some q.

Definition Clear (q : CacheQueue) : option CacheQueue :=
  Some {| m_CircleQ := m_CircleQ q; m_Head := 0; m_CurrSize := 0 |}.

(** [std::rotate(first, middle, last)] on offsets into the array: it
    requires [first, middle) and [middle, last) to be valid ranges and
    exchanges them; anything else is outside its contract. *)
Definition std_rotate (c : list A) (first middle last : Z) : option (list A) :=
  if decide (0 ≤ first ≤ middle ∧ middle ≤ last ≤ Z.of_nat (length c)) then
    let f := Z.to_nat first in
    let m := Z.to_nat middle in
    let l := Z.to_nat last in
    Some (take f c ++ take (l - m) (drop m c) ++ take (m - f) (drop f c)
            ++ drop l c)
  else None.

(** [std::rotate(begin(), end(), begin() + m_Head)]; no member is
    assigned. *)
Definition Reset (q : CacheQueue) : option CacheQueue :=
  c ← std_rotate (m_CircleQ q) 0 (Capacity q) (m_Head q);
  Some {| m_CircleQ := c; m_Head := m_Head q; m_CurrSize := m_CurrSize q |}.

(** One iteration of each loop of [Rotate]. *)
Definition rotate_forward (q : CacheQueue) : option CacheQueue :=
  stHead ← Head q; q1 ← PopHead q; PushBack q1 stHead.

Definition rotate_backward (q : CacheQueue) : option CacheQueue :=
  stBack ← Back q; q1 ← PopBack q; PushHead q1 stBack.

Definition Rotate (q : CacheQueue) (nRotate : Z) : option CacheQueue :=
  if negb (Empty q) then
    let nCount := Int.abs nRotate in
    if negb (bool_decide (nCount = 0)) then
      if bool_decide (nRotate > 0) then
        loop (Z.to_nat nCount) rotate_forward q
      else
        loop (Z.to_nat nCount) rotate_backward q
    else Some q
  else Some q.

(** The subscript computed by [operator[]]. *)
Definition index_slot (q : CacheQueue) (nIndex : Z) : option Z :=
  SizeT.rem (SizeT.add (SizeT.add (m_Head q) nIndex) (Capacity q))
            (Capacity q).

(** [operator[]] *)
Definition at_ (q : CacheQueue) (nIndex : Z) : option A :=
  s ← index_slot q nIndex; arr_at (m_CircleQ q) s.

Definition HeadOff (q : CacheQueue) : Z := m_Head q.

Definition BackOff (q : CacheQueue) : option Z :=
  SizeT.rem
    (SizeT.add (SizeT.sub (SizeT.add (m_Head q) (Length q)) 1) (Capacity q))
    (Capacity q).

(** The logical content, read the way the header documents iteration:
    [for (nIndex = 0; nIndex < stQ.Length(); ++nIndex) func(stQ[nIndex])].
    A subscript that failed would be skipped; [length_elements] shows that
    none does on a well-formed state. *)
Definition elements (q : CacheQueue) : list A :=
  omap (λ i : nat, at_ q (Z.of_nat i)) (seq 0 (Z.to_nat (Length q))).

(** ** Sequences of calls *)

Inductive op : Type :=
| OpPushHead (u : A)
| OpPushBack (u : A)
| OpPopHead
| OpPopBack
| OpClear
| OpRotate (nRotate : Z).

Definition apply_op (q : CacheQueue) (o : op) : option CacheQueue :=
  match o with
  | OpPushHead u => PushHead q u
  | OpPushBack u => PushBack q u
  | OpPopHead => PopHead q
  | OpPopBack => PopBack q
  | OpClear => Clear q
  | OpRotate k => Rotate q k
  end.

Fixpoint run (q : CacheQueue) (ops : list op) : option CacheQueue :=
  match ops with
  | [] => Some q
  | o :: ops' => q' ← apply_op q o; run q' ops'
  end.

(** The element count the spec describes: elements pushed and not yet
    popped or overwritten, for a buffer of [N] slots. *)
Definition spec_count (N : Z) (n : Z) (o : op) : Z :=
  match o with
  | OpPushHead _ | OpPushBack _ => Z.min (n + 1) N
  | OpPopHead | OpPopBack => Z.max (n - 1) 0
  | OpClear => 0
  | OpRotate _ => n
  end.

(** ** Well-formed states *)

(** The members are [size_t] values, and the head stays inside the
    array. *)
Definition wf (q : CacheQueue) : Prop :=
  Capacity q < SizeT.modulus ∧
  0 ≤ m_CurrSize q ≤ Capacity q ∧
  0 ≤ m_Head q ∧ (0 < Capacity q → m_Head q < Capacity q).

(** Index sums [m_Head + Length() + Capacity()] do not wrap. *)
Definition nowrap (q : CacheQueue) : Prop :=
  3 * Capacity q ≤ SizeT.modulus.

(** Closed forms of the slots the push operations compute: the slot
    [PushHead] moves the head to on a non-empty buffer, the slot
    [PushBack] stores to on a buffer that is neither empty nor full, and
    the physical slot of logical index [i]. *)
Definition head_pred (q : CacheQueue) : Z :=
  SizeT.wrap (m_Head q + Capacity q - 1) mod Capacity q.

Definition back_next (q : CacheQueue) : Z :=
  SizeT.wrap (m_Head q + m_CurrSize q) mod Capacity q.

Definition phys (q : CacheQueue) (i : Z) : Z :=
  (m_Head q + i) mod Capacity q.

(** What the callers of an operation may rely on: it returns, the result
    is well-formed and the storage keeps its size. *)
Definition keeps (q q' : CacheQueue) : Prop :=
  wf q' ∧ Capacity q' = Capacity q.

(** A store of [u] into an in-range slot. *)
Definition stored (q q' : CacheQueue) (u : A) : Prop :=
  ∃ s, 0 ≤ s < Capacity q ∧ m_CircleQ q' = <[Z.to_nat s := u]> (m_CircleQ q).

(** One iteration of either loop of [Rotate] returns and keeps the
    length. *)
Definition steady (body : CacheQueue → option (CacheQueue)) : Prop :=
  ∀ q, wf q → m_CurrSize q ≠ 0 →
    ∃ q', body q = Some q' ∧ keeps q q' ∧ m_CurrSize q' = m_CurrSize q.

(** A loop body that, on well-formed states holding [L] elements,
    returns and shifts the logical content cyclically by [r]. *)
Definition rotates_by (L : Z) (r : nat)
    (body : CacheQueue → option CacheQueue) : Prop :=
  ∀ q, wf q → nowrap q → m_CurrSize q = L →
    ∃ q', body q = Some q' ∧ keeps q q' ∧ m_CurrSize q' = L ∧
          elements q' = rotate r (elements q).

(** The arguments on which [std::abs<int>] is defined. *)
Definition valid_op (o : op) : Prop :=
  match o with
  | OpRotate k => Int.min_signed < k ≤ Int.max_signed
  | _ => True
  end.

(** The bounded double-ended queue as a function on the logical content: a
    list of at most [N] elements, front first. *)
Definition model_op (N : nat) (l : list A) (o : op) : list A :=
  match o with
  | OpPushHead u => u :: take (N - 1) l
  | OpPushBack u => (if decide (length l = N) then drop 1 l else l) ++ [u]
  | OpPopHead => drop 1 l
  | OpPopBack => take (length l - 1) l
  | OpClear => []
  | OpRotate k => rotate (Z.to_nat (k mod Z.of_nat (length l))) l
  end.

End CacheQueue.

Arguments CacheQueue : clear implicits.
Arguments op : clear implicits.

(** ** Arithmetic of the index computations *)

Lemma wrap_small (z : Z) : 0 ≤ z < SizeT.modulus → SizeT.wrap z = z.
Proof. intros Hz. unfold SizeT.wrap. by apply Z.mod_small. Qed.

Lemma wrap_range (z : Z) : 0 ≤ SizeT.wrap z < SizeT.modulus.
Proof. unfold SizeT.wrap, SizeT.modulus. apply Z.mod_pos_bound. lia. Qed.

Lemma wrap_add_l (a b : Z) : SizeT.wrap (SizeT.wrap a + b) = SizeT.wrap (a + b).
Proof. unfold SizeT.wrap. apply Zplus_mod_idemp_l. Qed.

Lemma wrap_sub_l (a b : Z) : SizeT.wrap (SizeT.wrap a - b) = SizeT.wrap (a - b).
Proof. unfold SizeT.wrap. apply Zminus_mod_idemp_l. Qed.

Lemma rem_Some (a n : Z) : n ≠ 0 → SizeT.rem a n = Some (a mod n).
Proof. intros Hn. unfold SizeT.rem. by rewrite decide_False. Qed.

Lemma rem_in_range (a n s : Z) : 0 < n → SizeT.rem a n = Some s → 0 ≤ s < n.
Proof.
  intros Hn. rewrite rem_Some by lia. intros [= <-].
  by apply Z.mod_pos_bound.
Qed.

(** Two residues agree when the numbers differ by a multiple of [n]. *)
Lemma mod_shift (a b k n : Z) : a = b + k * n → a mod n = b mod n.
Proof. intros ->. apply Z_mod_plus_full. Qed.

(** Offsets below [n] from a common base land in distinct slots. *)
Lemma mod_offset_inj (h i j n : Z) :
  0 ≤ i < n → 0 ≤ j < n → (h + i) mod n = (h + j) mod n → i = j.
Proof.
  intros Hi Hj Heq.
  assert (Hn : 0 < n) by lia.
  assert (Hd : ((h + i) - (h + j)) mod n = 0).
  { rewrite Zminus_mod, Heq, Z.sub_diag. by apply Z.mod_0_l, Z.neq_sym, Z.lt_neq. }
  replace (h + i - (h + j)) with (i - j) in Hd by lia.
  apply Z.mod_divide in Hd; [|lia].
  destruct Hd as [k Hk].
  assert (k = 0) by nia. lia.
Qed.

Lemma int_abs_small (k : Z) :
  Int.min_signed < k ≤ Int.max_signed → Int.abs k = Z.abs k.
Proof.
  unfold Int.min_signed, Int.max_signed, Int.abs, Int.wrap. intros Hk.
  rewrite Z.mod_small by lia. lia.
Qed.

Lemma int_abs_min : Int.abs Int.min_signed = Int.min_signed.
Proof. reflexivity. Qed.

(** ** What each operation computes on a well-formed state *)

Section operations.
Context {A : Type}.
Implicit Types (q : CacheQueue A) (u x : A) (c : list A).

Lemma Empty_true q : m_CurrSize q = 0 → Empty q = true.
Proof. intros H. unfold Empty. by rewrite bool_decide_eq_true. Qed.

Lemma Empty_false q : m_CurrSize q ≠ 0 → Empty q = false.
Proof. intros H. unfold Empty. by rewrite bool_decide_eq_false. Qed.

Lemma Full_true q : m_CurrSize q = Capacity q → Full q = true.
Proof. intros H. unfold Full. by rewrite bool_decide_eq_true. Qed.

Lemma Full_false q : m_CurrSize q ≠ Capacity q → Full q = false.
Proof. intros H. unfold Full. by rewrite bool_decide_eq_false. Qed.

Lemma arr_store_Some c i u :
  0 ≤ i < Z.of_nat (length c) →
  arr_store c i u = Some (<[Z.to_nat i := u]> c).
Proof. intros Hi. unfold arr_store. by rewrite decide_True. Qed.

Lemma arr_at_lookup c i : 0 ≤ i → arr_at c i = c !! Z.to_nat i.
Proof. intros Hi. unfold arr_at. by rewrite decide_True. Qed.

Lemma arr_at_is_Some c i : 0 ≤ i < Z.of_nat (length c) → is_Some (arr_at c i).
Proof.
  intros Hi. rewrite arr_at_lookup by lia. apply lookup_lt_is_Some. lia.
Qed.

Lemma wf_init (N : nat) (d : A) : Z.of_nat N < SizeT.modulus → wf (init N d).
Proof.
  intros HN. unfold wf, Capacity, init; simpl. rewrite length_replicate. lia.
Qed.

Lemma Capacity_init (N : nat) (d : A) : Capacity (init N d) = Z.of_nat N.
Proof. unfold Capacity, init; simpl. by rewrite length_replicate. Qed.

Lemma push_empty_store q u :
  0 < Capacity q →
  arr_store (m_CircleQ q) 0 u = Some (<[0%nat := u]> (m_CircleQ q)).
Proof. intros HN. rewrite arr_store_Some; [done|]. unfold Capacity in HN. lia. Qed.

Lemma PushHead_empty q u :
  0 < Capacity q → m_CurrSize q = 0 →
  PushHead q u = Some (mkCacheQueue (<[0%nat := u]> (m_CircleQ q)) 0 1).
Proof.
  intros HN Hs. unfold PushHead.
  rewrite (Empty_true q Hs), push_empty_store by done. done.
Qed.

Lemma PushBack_empty q u :
  0 < Capacity q → m_CurrSize q = 0 →
  PushBack q u = Some (mkCacheQueue (<[0%nat := u]> (m_CircleQ q)) 0 1).
Proof.
  intros HN Hs. unfold PushBack.
  rewrite (Empty_true q Hs), push_empty_store by done. done.
Qed.

Lemma head_pred_range q : 0 < Capacity q → 0 ≤ head_pred q < Capacity q.
Proof. intros HN. by apply Z.mod_pos_bound. Qed.

Lemma back_next_range q : 0 < Capacity q → 0 ≤ back_next q < Capacity q.
Proof. intros HN. by apply Z.mod_pos_bound. Qed.

Lemma PushHead_nonempty q u :
  0 < Capacity q → m_CurrSize q ≠ 0 →
  PushHead q u =
    Some (mkCacheQueue (<[Z.to_nat (head_pred q) := u]> (m_CircleQ q))
            (head_pred q)
            (Z.min (SizeT.wrap (m_CurrSize q + 1)) (Capacity q))).
Proof.
  intros HN Hs. unfold PushHead. rewrite (Empty_false q Hs).
  unfold SizeT.sub, SizeT.add. rewrite wrap_sub_l, rem_Some by lia. simpl.
  fold (head_pred q). rewrite arr_store_Some; [done|].
  apply head_pred_range, HN.
Qed.

Lemma PushBack_full q u :
  wf q → m_CurrSize q ≠ 0 → m_CurrSize q = Capacity q →
  PushBack q u =
    Some (mkCacheQueue (<[Z.to_nat (m_Head q) := u]> (m_CircleQ q))
            ((m_Head q + 1) mod Capacity q) (m_CurrSize q)).
Proof.
  intros (HN & Hs & Hh0 & Hh) Hne Hfull. unfold PushBack.
  rewrite (Empty_false q Hne), (Full_true q Hfull).
  rewrite arr_store_Some by (unfold Capacity in *; lia). simpl.
  unfold SizeT.add. rewrite wrap_small, rem_Some by lia. done.
Qed.

Lemma PushBack_room q u :
  0 < Capacity q → m_CurrSize q ≠ 0 → m_CurrSize q ≠ Capacity q →
  PushBack q u =
    Some (mkCacheQueue (<[Z.to_nat (back_next q) := u]> (m_CircleQ q))
            (m_Head q)
            (Z.min (SizeT.wrap (m_CurrSize q + 1)) (Capacity q))).
Proof.
  intros HN Hne Hnf. unfold PushBack.
  rewrite (Empty_false q Hne), (Full_false q Hnf).
  unfold SizeT.add, Length, Size. rewrite rem_Some by lia. simpl.
  fold (back_next q). rewrite arr_store_Some; [done|].
  apply back_next_range, HN.
Qed.

Lemma PopHead_nonempty q :
  wf q → m_CurrSize q ≠ 0 →
  PopHead q =
    Some (mkCacheQueue (m_CircleQ q) ((m_Head q + 1) mod Capacity q)
            (m_CurrSize q - 1)).
Proof.
  intros (HN & Hs & Hh0 & Hh) Hne. unfold PopHead.
  rewrite (Empty_false q Hne). simpl.
  unfold SizeT.add, SizeT.sub. rewrite !wrap_small, rem_Some by lia. done.
Qed.

Lemma PopHead_empty q : m_CurrSize q = 0 → PopHead q = Some q.
Proof. intros Hs. unfold PopHead. by rewrite (Empty_true q Hs). Qed.

Lemma PopBack_nonempty q :
  wf q → m_CurrSize q ≠ 0 →
  PopBack q =
    Some (mkCacheQueue (m_CircleQ q) (m_Head q) (m_CurrSize q - 1)).
Proof.
  intros (HN & Hs & Hh0 & Hh) Hne. unfold PopBack.
  rewrite (Empty_false q Hne). simpl.
  unfold SizeT.sub. rewrite wrap_small by lia. done.
Qed.

Lemma PopBack_empty q : m_CurrSize q = 0 → PopBack q = Some q.
Proof. intros Hs. unfold PopBack. by rewrite (Empty_true q Hs). Qed.

End operations.

(** ** The logical content *)

Section content.
Context {A : Type}.
Implicit Types (q : CacheQueue A) (u x : A) (c l : list A).

Lemma omap_seq_total (f : nat → option A) (n s : nat) :
  (∀ j, (j < n)%nat → is_Some (f (s + j)%nat)) →
  length (omap f (seq s n)) = n ∧
  ∀ i, (i < n)%nat → omap f (seq s n) !! i = f (s + i)%nat.
Proof.
  revert s. induction n as [|n IH]; intros s Hf.
  - split; [done|]. intros i Hi. lia.
  - destruct (Hf 0%nat) as [y Hy]; [lia|].
    rewrite Nat.add_0_r in Hy.
    destruct (IH (S s)) as [Hlen Hlk].
    { intros j Hj. replace (S s + j)%nat with (s + S j)%nat by lia.
      apply Hf. lia. }
    assert (Hstep : omap f (seq s (S n)) = y :: omap f (seq (S s) n)).
    { change (seq s (S n)) with (s :: seq (S s) n).
      change (omap f (s :: seq (S s) n)) with
        (match f s with
         | Some z => z :: omap f (seq (S s) n)
         | None => omap f (seq (S s) n)
         end).
      by rewrite Hy. }
    rewrite Hstep. split; [by rewrite length_cons, Hlen|].
    intros [|i] Hi.
    + by rewrite Nat.add_0_r.
    + change ((y :: omap f (seq (S s) n)) !! S i)
        with (omap f (seq (S s) n) !! i).
      rewrite Hlk by lia. f_equal. lia.
Qed.

Lemma index_slot_Some q i :
  0 < Capacity q →
  index_slot q i =
    Some (SizeT.wrap (m_Head q + i + Capacity q) mod Capacity q).
Proof.
  intros HN. unfold index_slot, SizeT.add.
  by rewrite wrap_add_l, rem_Some by lia.
Qed.

Lemma index_slot_phys q i :
  wf q → 0 < Capacity q → 0 ≤ i →
  m_Head q + i + Capacity q < SizeT.modulus →
  index_slot q i = Some (phys q i).
Proof.
  intros (HN & Hs & Hh0 & Hh) Hpos Hi Hsum.
  rewrite index_slot_Some, wrap_small by lia. f_equal.
  unfold phys. apply (mod_shift _ _ 1). lia.
Qed.

Lemma phys_range q i : 0 < Capacity q → 0 ≤ phys q i < Capacity q.
Proof. intros HN. by apply Z.mod_pos_bound. Qed.

Lemma at_is_Some q i : 0 < Capacity q → is_Some (at_ q i).
Proof.
  intros HN. unfold at_. rewrite index_slot_Some by done. simpl.
  apply arr_at_is_Some. by apply Z.mod_pos_bound.
Qed.

Lemma at_phys q i :
  wf q → nowrap q → 0 ≤ i ≤ Capacity q → 0 < Capacity q →
  at_ q i = m_CircleQ q !! Z.to_nat (phys q i).
Proof.
  intros Hwf Hnw Hi HN. unfold at_.
  rewrite index_slot_phys; [| done | done | lia |].
  - simpl. apply arr_at_lookup. by apply phys_range.
  - destruct Hwf as (_ & _ & _ & Hh). unfold nowrap in Hnw. lia.
Qed.

Lemma elements_total q :
  wf q →
  length (elements q) = Z.to_nat (Length q) ∧
  ∀ i : nat, Z.of_nat i < Length q → elements q !! i = at_ q (Z.of_nat i).
Proof.
  intros (HN & Hs & Hh0 & Hh). unfold elements.
  destruct (omap_seq_total (λ i : nat, at_ q (Z.of_nat i))
              (Z.to_nat (Length q)) 0) as [Hlen Hlk].
  - intros j Hj. apply at_is_Some. unfold Length, Size in Hj. lia.
  - split; [done|]. intros i Hi. apply Hlk. lia.
Qed.

Lemma length_elements q : wf q → length (elements q) = Z.to_nat (Length q).
Proof. intros Hwf. by destruct (elements_total q Hwf). Qed.

Lemma elements_lookup q (i : nat) :
  wf q → nowrap q → Z.of_nat i < m_CurrSize q →
  elements q !! i = m_CircleQ q !! Z.to_nat (phys q (Z.of_nat i)).
Proof.
  intros Hwf Hnw Hi. destruct (elements_total q Hwf) as [_ Hlk].
  rewrite Hlk by done. pose proof Hwf as (HN & Hs & Hh0 & Hh).
  apply at_phys; [done..| lia | lia].
Qed.

Lemma elements_empty q : m_CurrSize q = 0 → elements q = [].
Proof. intros Hs. unfold elements, Length, Size. by rewrite Hs. Qed.

(** A list is the logical content as soon as it has the right length and
    the right element at every logical index. *)
Lemma elements_intro q l :
  wf q → nowrap q →
  Z.of_nat (length l) = m_CurrSize q →
  (∀ i : nat, Z.of_nat i < m_CurrSize q →
     l !! i = m_CircleQ q !! Z.to_nat (phys q (Z.of_nat i))) →
  elements q = l.
Proof.
  intros Hwf Hnw Hlen Hl. apply list_eq. intros i.
  destruct (decide (Z.of_nat i < m_CurrSize q)) as [Hi|Hi].
  - by rewrite elements_lookup, Hl.
  - rewrite !lookup_ge_None_2; [done|lia|].
    rewrite length_elements by done. unfold Length, Size. lia.
Qed.

Lemma lookup_insert_Z c (s t : Z) u :
  0 ≤ s < Z.of_nat (length c) → 0 ≤ t →
  <[Z.to_nat s := u]> c !! Z.to_nat t =
    if decide (s = t) then Some u else c !! Z.to_nat t.
Proof.
  intros Hs Ht. destruct (decide (s = t)) as [->|Hne].
  - apply list_lookup_insert_eq. lia.
  - apply list_lookup_insert_ne. lia.
Qed.

Lemma phys_inj q (i j : Z) :
  0 ≤ i < Capacity q → 0 ≤ j < Capacity q → phys q i = phys q j → i = j.
Proof. unfold phys. apply mod_offset_inj. Qed.

End content.

(** ** Effect of every operation on the logical content *)

Section effects.
Context {A : Type}.
Implicit Types (q : CacheQueue A) (u x : A) (c l : list A).

Lemma wf_mk q c h n :
  length c = length (m_CircleQ q) →
  Capacity q < SizeT.modulus →
  0 ≤ n ≤ Capacity q → 0 ≤ h → (0 < Capacity q → h < Capacity q) →
  wf (mkCacheQueue c h n) ∧ Capacity (mkCacheQueue c h n) = Capacity q.
Proof.
  intros Hlen HN Hn Hh0 Hh. unfold wf, Capacity in *; simpl.
  rewrite Hlen. lia.
Qed.

Lemma nowrap_Capacity q q' : Capacity q' = Capacity q → nowrap q → nowrap q'.
Proof. unfold nowrap. by intros ->. Qed.

Lemma back_next_phys q :
  wf q → nowrap q → 0 < Capacity q → back_next q = phys q (m_CurrSize q).
Proof.
  intros (HN & Hs & Hh0 & Hh) Hnw Hpos. unfold back_next, phys, nowrap in *.
  rewrite wrap_small; [done|]. lia.
Qed.

Lemma head_pred_phys q :
  wf q → nowrap q → 0 < Capacity q → head_pred q = phys q (-1).
Proof.
  intros (HN & Hs & Hh0 & Hh) Hnw Hpos. unfold head_pred, phys, nowrap in *.
  rewrite wrap_small by lia. apply (mod_shift _ _ 1). lia.
Qed.

(** Logical index [i] of a state whose head is slot [phys q k] is
    logical index [k + i] of [q]. *)
Lemma phys_rebase q c k n i :
  length c = length (m_CircleQ q) →
  phys (mkCacheQueue c (phys q k) n) i = phys q (k + i).
Proof.
  intros Hlen. unfold phys, Capacity; simpl. rewrite Hlen.
  rewrite Zplus_mod_idemp_l. f_equal. lia.
Qed.

Lemma phys_same_head q c n i :
  length c = length (m_CircleQ q) →
  phys (mkCacheQueue c (m_Head q) n) i = phys q i.
Proof. intros Hlen. unfold phys, Capacity; simpl. by rewrite Hlen. Qed.

Lemma phys_wrap q i : 0 < Capacity q → phys q (i + Capacity q) = phys q i.
Proof. intros HN. unfold phys. apply (mod_shift _ _ 1). lia. Qed.

Lemma phys_0 q : wf q → 0 < Capacity q → phys q 0 = m_Head q.
Proof.
  intros (HN & Hs & Hh0 & Hh) Hpos. unfold phys.
  rewrite Z.add_0_r. apply Z.mod_small. lia.
Qed.

Lemma PushBack_spec q u :
  wf q → nowrap q → 0 < Capacity q →
  ∃ q', PushBack q u = Some q' ∧ wf q' ∧ Capacity q' = Capacity q ∧
        m_CurrSize q' = Z.min (m_CurrSize q + 1) (Capacity q) ∧
        elements q' =
          (if decide (m_CurrSize q = Capacity q)
           then drop 1 (elements q) else elements q) ++ [u].
Proof.
  intros Hwf Hnw Hpos. pose proof Hwf as (HN & Hs & Hh0 & Hh).
  pose proof (length_elements q Hwf) as Hlen. unfold Length, Size in Hlen.
  destruct (decide (m_CurrSize q = 0)) as [He|Hne].
  - (* empty *)
    rewrite PushBack_empty by done. eexists; split; [done|].
    destruct (wf_mk q (<[0%nat := u]> (m_CircleQ q)) 0 1) as [Hwf' Hcap];
      [by rewrite length_insert|lia..|].
    split_and!; [done|done|simpl; lia|].
    rewrite decide_False by lia. rewrite (elements_empty q He). simpl.
    apply elements_intro; [done|by eapply nowrap_Capacity|done|].
    simpl. intros i Hi. assert (i = 0%nat) as -> by lia.
    unfold phys; simpl. rewrite Hcap, Z.mod_small by lia. simpl.
    symmetry. apply list_lookup_insert_eq. unfold Capacity in Hpos. lia.
  - destruct (decide (m_CurrSize q = Capacity q)) as [Hf|Hnf].
    + (* full: the head slot is overwritten and the head advances *)
      rewrite PushBack_full by done.
      replace ((m_Head q + 1) mod Capacity q) with (phys q 1) by done.
      eexists; split; [done|].
      destruct (wf_mk q (<[Z.to_nat (m_Head q) := u]> (m_CircleQ q))
                  (phys q 1) (m_CurrSize q)) as [Hwf' Hcap];
        [by rewrite length_insert|lia|lia|apply phys_range; lia
        |intros _; apply phys_range; lia|].
      split_and!; [done|done|simpl; lia|].
      apply elements_intro; [done|by eapply nowrap_Capacity| |].
      { simpl. rewrite length_app, length_drop, Hlen. simpl. lia. }
      cbn [m_CircleQ m_CurrSize]. intros i Hi.
      rewrite (phys_rebase q _ 1) by (by rewrite length_insert).
      rewrite <- (phys_0 q) at 1 by done.
      rewrite lookup_insert_Z;
        [|rewrite phys_0 by done; unfold Capacity in *; lia
         |apply phys_range; lia].
      destruct (decide (Z.of_nat i = m_CurrSize q - 1)) as [Hlast|Hmid].
      * rewrite lookup_app_r by (rewrite length_drop; lia).
        rewrite length_drop, Hlen.
        replace (i - (Z.to_nat (m_CurrSize q) - 1))%nat with 0%nat by lia.
        rewrite decide_True; [done|].
        replace (1 + Z.of_nat i) with (0 + Capacity q) by lia.
        by rewrite phys_wrap.
      * rewrite lookup_app_l by (rewrite length_drop; lia).
        rewrite lookup_drop, decide_False.
        -- rewrite elements_lookup by (done || lia).
           do 3 f_equal. lia.
        -- intros Heq. apply phys_inj in Heq; lia.
    + (* room left: the slot after the back is written *)
      rewrite PushBack_room by done.
      rewrite wrap_small by lia. rewrite Z.min_l by lia.
      rewrite back_next_phys by done.
      eexists; split; [done|].
      destruct (wf_mk q (<[Z.to_nat (phys q (m_CurrSize q)) := u]> (m_CircleQ q))
                  (m_Head q) (m_CurrSize q + 1)) as [Hwf' Hcap];
        [by rewrite length_insert|lia..|].
      split_and!; [done|done|simpl; lia|].
      apply elements_intro; [done|by eapply nowrap_Capacity| |].
      { simpl. rewrite length_app, Hlen. simpl. lia. }
      cbn [m_CircleQ m_CurrSize]. intros i Hi.
      rewrite phys_same_head by (by rewrite length_insert).
      rewrite lookup_insert_Z;
        [|pose proof (phys_range q (m_CurrSize q) Hpos);
          unfold Capacity in *; lia
         |apply phys_range; lia].
      destruct (decide (Z.of_nat i = m_CurrSize q)) as [Hlast|Hmid].
      * rewrite lookup_app_r by lia. rewrite Hlen.
        replace (i - Z.to_nat (m_CurrSize q))%nat with 0%nat by lia.
        rewrite decide_True; [done|]. by rewrite Hlast.
      * rewrite lookup_app_l by lia.
        rewrite decide_False.
        -- by rewrite elements_lookup by (done || lia).
        -- intros Heq. apply phys_inj in Heq; lia.
Qed.

Lemma PushHead_spec q u :
  wf q → nowrap q → 0 < Capacity q →
  ∃ q', PushHead q u = Some q' ∧ wf q' ∧ Capacity q' = Capacity q ∧
        m_CurrSize q' = Z.min (m_CurrSize q + 1) (Capacity q) ∧
        elements q' = u :: take (Z.to_nat (Capacity q - 1)) (elements q).
Proof.
  intros Hwf Hnw Hpos. pose proof Hwf as (HN & Hs & Hh0 & Hh).
  pose proof (length_elements q Hwf) as Hlen. unfold Length, Size in Hlen.
  destruct (decide (m_CurrSize q = 0)) as [He|Hne].
  - rewrite PushHead_empty by done. eexists; split; [done|].
    destruct (wf_mk q (<[0%nat := u]> (m_CircleQ q)) 0 1) as [Hwf' Hcap];
      [by rewrite length_insert|lia..|].
    split_and!; [done|done|simpl; lia|].
    rewrite (elements_empty q He), take_nil.
    apply elements_intro; [done|by eapply nowrap_Capacity|done|].
    cbn [m_CircleQ m_CurrSize]. intros i Hi. assert (i = 0%nat) as -> by lia.
    unfold phys. rewrite Hcap. cbn [m_Head].
    rewrite Z.mod_small by lia. simpl.
    symmetry. apply list_lookup_insert_eq. unfold Capacity in Hpos. lia.
  - rewrite PushHead_nonempty by done.
    unfold nowrap in Hnw. rewrite wrap_small by lia.
    rewrite head_pred_phys by done.
    eexists; split; [done|].
    pose proof (phys_range q (-1) Hpos) as Hpr.
    destruct (wf_mk q (<[Z.to_nat (phys q (-1)) := u]> (m_CircleQ q))
                (phys q (-1)) (Z.min (m_CurrSize q + 1) (Capacity q)))
      as [Hwf' Hcap]; [by rewrite length_insert|lia..|].
    split_and!; [done|done|done|].
    apply elements_intro; [done|by eapply nowrap_Capacity| |].
    { cbn [m_CurrSize]. rewrite length_cons, length_take, Hlen. lia. }
    cbn [m_CircleQ m_CurrSize]. intros i Hi.
    rewrite (phys_rebase q _ (-1)) by (by rewrite length_insert).
    rewrite lookup_insert_Z;
      [|unfold Capacity in *; lia|apply phys_range; lia].
    destruct i as [|i].
    + rewrite decide_True; [done|]. f_equal.
    + rewrite decide_False.
      * rewrite lookup_cons, lookup_take_lt by lia.
        rewrite elements_lookup by (done || lia). do 3 f_equal. lia.
      * rewrite <- (phys_wrap q (-1)) by done.
        intros Heq. apply phys_inj in Heq; lia.
Qed.

Lemma PopHead_spec q :
  wf q → nowrap q →
  ∃ q', PopHead q = Some q' ∧ wf q' ∧ Capacity q' = Capacity q ∧
        m_CurrSize q' = Z.max (m_CurrSize q - 1) 0 ∧
        elements q' = drop 1 (elements q).
Proof.
  intros Hwf Hnw. pose proof Hwf as (HN & Hs & Hh0 & Hh).
  pose proof (length_elements q Hwf) as Hlen. unfold Length, Size in Hlen.
  destruct (decide (m_CurrSize q = 0)) as [He|Hne].
  - rewrite PopHead_empty by done. exists q.
    split_and!; [done|done|done|lia|]. by rewrite (elements_empty q He).
  - assert (Hpos : 0 < Capacity q) by lia.
    rewrite PopHead_nonempty by done.
    replace ((m_Head q + 1) mod Capacity q) with (phys q 1) by done.
    eexists; split; [done|].
    pose proof (phys_range q 1 Hpos) as Hpr.
    destruct (wf_mk q (m_CircleQ q) (phys q 1) (m_CurrSize q - 1))
      as [Hwf' Hcap]; [done|lia..|].
    split_and!; [done|done|simpl; lia|].
    apply elements_intro; [done|by eapply nowrap_Capacity| |].
    { cbn [m_CurrSize]. rewrite length_drop, Hlen. lia. }
    cbn [m_CircleQ m_CurrSize]. intros i Hi.
    rewrite (phys_rebase q _ 1) by done.
    rewrite lookup_drop, elements_lookup by (done || lia).
    do 3 f_equal. lia.
Qed.

Lemma PopBack_spec q :
  wf q → nowrap q →
  ∃ q', PopBack q = Some q' ∧ wf q' ∧ Capacity q' = Capacity q ∧
        m_CurrSize q' = Z.max (m_CurrSize q - 1) 0 ∧
        elements q' = take (Z.to_nat (m_CurrSize q - 1)) (elements q).
Proof.
  intros Hwf Hnw. pose proof Hwf as (HN & Hs & Hh0 & Hh).
  pose proof (length_elements q Hwf) as Hlen. unfold Length, Size in Hlen.
  destruct (decide (m_CurrSize q = 0)) as [He|Hne].
  - rewrite PopBack_empty by done. exists q.
    split_and!; [done|done|done|lia|]. by rewrite (elements_empty q He), take_nil.
  - rewrite PopBack_nonempty by done. eexists; split; [done|].
    destruct (wf_mk q (m_CircleQ q) (m_Head q) (m_CurrSize q - 1))
      as [Hwf' Hcap]; [done|lia..|].
    split_and!; [done|done|simpl; lia|].
    apply elements_intro; [done|by eapply nowrap_Capacity| |].
    { cbn [m_CurrSize]. rewrite length_take, Hlen. lia. }
    cbn [m_CircleQ m_CurrSize]. intros i Hi.
    rewrite phys_same_head by done.
    rewrite lookup_take_lt by lia. apply elements_lookup; (done || lia).
Qed.

Lemma Clear_spec q :
  wf q →
  ∃ q', Clear q = Some q' ∧ wf q' ∧ Capacity q' = Capacity q ∧
        m_CurrSize q' = 0 ∧ elements q' = [].
Proof.
  intros (HN & Hs & Hh0 & Hh). eexists; split; [done|].
  destruct (wf_mk q (m_CircleQ q) 0 0) as [Hwf' Hcap]; [done|lia..|].
  split_and!; [done|done|done|]. by apply elements_empty.
Qed.

End effects.

(** ** Totality and preservation of the invariant

    None of the lemmas of this section needs [nowrap]: a wrapped index
    still lands inside the array. *)

Section invariant.
Context {A : Type}.
Implicit Types (q : CacheQueue A) (u x : A) (c l : list A).

Lemma keeps_refl q : wf q → keeps q q.
Proof. by split. Qed.

Lemma PushHead_wf q u :
  wf q → 0 < Capacity q →
  ∃ q', PushHead q u = Some q' ∧ keeps q q' ∧ stored q q' u ∧
        m_CurrSize q' =
          if decide (m_CurrSize q = 0) then 1
          else Z.min (SizeT.wrap (m_CurrSize q + 1)) (Capacity q).
Proof.
  intros Hwf Hpos. pose proof Hwf as (HN & Hs & Hh0 & Hh).
  destruct (decide (m_CurrSize q = 0)) as [He|Hne].
  - rewrite PushHead_empty by done. eexists; split; [done|].
    split_and!; [|by exists 0|done].
    apply wf_mk; [by rewrite length_insert|lia..].
  - rewrite PushHead_nonempty by done. eexists; split; [done|].
    pose proof (head_pred_range q Hpos).
    pose proof (wrap_range (m_CurrSize q + 1)).
    split_and!; [|by exists (head_pred q)|done].
    apply wf_mk; [by rewrite length_insert|lia..].
Qed.

Lemma PushBack_wf q u :
  wf q → 0 < Capacity q →
  ∃ q', PushBack q u = Some q' ∧ keeps q q' ∧ stored q q' u ∧
        m_CurrSize q' =
          if decide (m_CurrSize q = 0) then 1
          else if decide (m_CurrSize q = Capacity q) then m_CurrSize q
          else Z.min (SizeT.wrap (m_CurrSize q + 1)) (Capacity q).
Proof.
  intros Hwf Hpos. pose proof Hwf as (HN & Hs & Hh0 & Hh).
  destruct (decide (m_CurrSize q = 0)) as [He|Hne].
  - rewrite PushBack_empty by done. eexists; split; [done|].
    split_and!; [|by exists 0|done].
    apply wf_mk; [by rewrite length_insert|lia..].
  - destruct (decide (m_CurrSize q = Capacity q)) as [Hf|Hnf].
    + rewrite PushBack_full by done. eexists; split; [done|].
      pose proof (Z.mod_pos_bound (m_Head q + 1) (Capacity q) Hpos).
      split_and!; [|exists (m_Head q); split; [lia|done]|done].
      apply wf_mk; [by rewrite length_insert|lia..].
    + rewrite PushBack_room by done. eexists; split; [done|].
      pose proof (back_next_range q Hpos).
      pose proof (wrap_range (m_CurrSize q + 1)).
      split_and!; [|by exists (back_next q)|done].
      apply wf_mk; [by rewrite length_insert|lia..].
Qed.

Lemma PopHead_wf q :
  wf q →
  ∃ q', PopHead q = Some q' ∧ keeps q q' ∧ m_CircleQ q' = m_CircleQ q ∧
        m_CurrSize q' = Z.max (m_CurrSize q - 1) 0.
Proof.
  intros Hwf. pose proof Hwf as (HN & Hs & Hh0 & Hh).
  destruct (decide (m_CurrSize q = 0)) as [He|Hne].
  - rewrite PopHead_empty by done. exists q.
    split_and!; [done|by apply keeps_refl|done|lia].
  - rewrite PopHead_nonempty by done. eexists; split; [done|].
    assert (Hpos : 0 < Capacity q) by lia.
    pose proof (Z.mod_pos_bound (m_Head q + 1) (Capacity q) Hpos).
    split_and!; [|done|simpl; lia]. apply wf_mk; [done|lia..].
Qed.

Lemma PopBack_wf q :
  wf q →
  ∃ q', PopBack q = Some q' ∧ keeps q q' ∧ m_CircleQ q' = m_CircleQ q ∧
        m_CurrSize q' = Z.max (m_CurrSize q - 1) 0.
Proof.
  intros Hwf. pose proof Hwf as (HN & Hs & Hh0 & Hh).
  destruct (decide (m_CurrSize q = 0)) as [He|Hne].
  - rewrite PopBack_empty by done. exists q.
    split_and!; [done|by apply keeps_refl|done|lia].
  - rewrite PopBack_nonempty by done. eexists; split; [done|].
    split_and!; [|done|simpl; lia]. apply wf_mk; [done|lia..].
Qed.

Lemma Head_is_Some q : wf q → 0 < Capacity q → is_Some (Head q).
Proof.
  intros (HN & Hs & Hh0 & Hh) Hpos. apply arr_at_is_Some.
  unfold Capacity in *. lia.
Qed.

Lemma Back_slot_Some q :
  0 < Capacity q →
  Back_slot q =
    Some (SizeT.wrap (m_Head q + m_CurrSize q + Capacity q - 1)
            mod Capacity q).
Proof.
  intros Hpos. unfold Back_slot, SizeT.sub, SizeT.add, Length, Size.
  by rewrite !wrap_add_l, wrap_sub_l, rem_Some by lia.
Qed.

Lemma BackOff_Some q :
  0 < Capacity q →
  BackOff q =
    Some (SizeT.wrap (m_Head q + m_CurrSize q - 1 + Capacity q)
            mod Capacity q).
Proof.
  intros Hpos. unfold BackOff, SizeT.sub, SizeT.add, Length, Size.
  by rewrite wrap_sub_l, wrap_add_l, rem_Some by lia.
Qed.

Lemma Back_is_Some q : 0 < Capacity q → is_Some (Back q).
Proof.
  intros Hpos. unfold Back. rewrite Back_slot_Some by done. simpl.
  apply arr_at_is_Some. by apply Z.mod_pos_bound.
Qed.

Lemma rotate_forward_steady : steady (@rotate_forward A).
Proof.
  intros q Hwf Hne. pose proof Hwf as (HN & Hs & Hh0 & Hh).
  assert (Hpos : 0 < Capacity q) by lia.
  unfold rotate_forward.
  destruct (Head_is_Some q Hwf Hpos) as [x ->]. simpl.
  destruct (PopHead_wf q Hwf) as (q1 & -> & [Hwf1 Hcap1] & _ & Hs1). simpl.
  destruct (PushBack_wf q1 x Hwf1) as (q2 & -> & [Hwf2 Hcap2] & _ & Hs2);
    [lia|].
  exists q2. split; [done|]. split; [split; [done|congruence]|].
  rewrite Hs2. repeat case_decide; try lia.
  rewrite wrap_small by lia. lia.
Qed.

Lemma rotate_backward_steady : steady (@rotate_backward A).
Proof.
  intros q Hwf Hne. pose proof Hwf as (HN & Hs & Hh0 & Hh).
  assert (Hpos : 0 < Capacity q) by lia.
  unfold rotate_backward.
  destruct (Back_is_Some q Hpos) as [x ->]. simpl.
  destruct (PopBack_wf q Hwf) as (q1 & -> & [Hwf1 Hcap1] & _ & Hs1). simpl.
  destruct (PushHead_wf q1 x Hwf1) as (q2 & -> & [Hwf2 Hcap2] & _ & Hs2);
    [lia|].
  exists q2. split; [done|]. split; [split; [done|congruence]|].
  rewrite Hs2. case_decide; try lia.
  rewrite wrap_small by lia. lia.
Qed.

Lemma loop_steady (body : CacheQueue A → option (CacheQueue A)) (n : nat) :
  steady body → steady (loop n body).
Proof.
  intros Hbody. induction n as [|n IH]; intros q Hwf Hne.
  - exists q. split_and!; [done|by apply keeps_refl|done].
  - destruct (Hbody q Hwf Hne) as (q1 & Hq1 & [Hwf1 Hcap1] & Hs1).
    destruct (IH q1 Hwf1) as (q2 & Hq2 & [Hwf2 Hcap2] & Hs2); [congruence|].
    exists q2. simpl. rewrite Hq1. simpl.
    split; [done|]. split; [split|]; congruence.
Qed.

Lemma Rotate_wf q (nRotate : Z) :
  wf q →
  ∃ q', Rotate q nRotate = Some q' ∧ keeps q q' ∧
        m_CurrSize q' = m_CurrSize q.
Proof.
  intros Hwf. unfold Rotate.
  destruct (Empty q) eqn:He; simpl; [by exists q; split_and!; [|apply keeps_refl|]|].
  apply bool_decide_eq_false in He.
  case_bool_decide; simpl; [by exists q; split_and!; [|apply keeps_refl|]|].
  case_bool_decide.
  - by apply loop_steady; [apply rotate_forward_steady|..].
  - by apply loop_steady; [apply rotate_backward_steady|..].
Qed.

Lemma apply_op_wf q (o : op A) :
  wf q → 0 < Capacity q → ∃ q', apply_op q o = Some q' ∧ keeps q q'.
Proof.
  intros Hwf Hpos. destruct o as [u|u| | | |k]; simpl.
  - destruct (PushHead_wf q u) as (q' & ? & ? & _); eauto.
  - destruct (PushBack_wf q u) as (q' & ? & ? & _); eauto.
  - destruct (PopHead_wf q) as (q' & ? & ? & _); eauto.
  - destruct (PopBack_wf q) as (q' & ? & ? & _); eauto.
  - destruct (Clear_spec q) as (q' & ? & ? & ? & _); [done|].
    exists q'. by split_and!.
  - destruct (Rotate_wf q k) as (q' & ? & ? & _); eauto.
Qed.

Lemma run_wf q (ops : list (op A)) :
  wf q → 0 < Capacity q → ∃ q', run q ops = Some q' ∧ keeps q q'.
Proof.
  revert q. induction ops as [|o ops IH]; intros q Hwf Hpos.
  - exists q. split_and!; [done|by apply keeps_refl..].
  - destruct (apply_op_wf q o Hwf Hpos) as (q1 & Hq1 & [Hwf1 Hcap1]).
    destruct (IH q1 Hwf1) as (q2 & Hq2 & [Hwf2 Hcap2]); [lia|].
    exists q2. simpl. rewrite Hq1. simpl.
    split; [done|]. split; congruence.
Qed.

End invariant.

(** ** Rotation *)

Section rotation.
Context {A : Type}.
Implicit Types (q : CacheQueue A) (u x : A) (c l : list A).

Lemma rotate_0 l : rotate 0 l = l.
Proof.
  unfold rotate. rewrite Nat.Div0.mod_0_l. simpl. by rewrite app_nil_r.
Qed.

Lemma rotate_congr (a b : nat) l :
  Z.of_nat a mod Z.of_nat (length l) = Z.of_nat b mod Z.of_nat (length l) →
  rotate a l = rotate b l.
Proof.
  intros Hab. unfold rotate.
  assert (Hmod : (a mod length l = b mod length l)%nat).
  { apply Nat2Z.inj. by rewrite !Nat2Z.inj_mod. }
  by rewrite Hmod.
Qed.

Lemma rotate_rotate (a b : nat) l : rotate a (rotate b l) = rotate (b + a) l.
Proof.
  apply list_eq. intros i.
  destruct (decide (i < length l)%nat) as [Hi|Hi].
  - rewrite (lookup_rotate_r (rotate b l) a i) by (by rewrite length_rotate).
    rewrite length_rotate.
    rewrite (lookup_rotate_r l b) by (apply rotate_nat_add_lt; lia).
    rewrite (lookup_rotate_r l (b + a) i) by done.
    f_equal. unfold rotate_nat_add.
    rewrite Z2Nat.id by (apply Z.mod_pos; lia).
    rewrite Zplus_mod_idemp_r. do 2 f_equal. lia.
  - rewrite !lookup_ge_None_2; [done|rewrite ?length_rotate; lia..].
Qed.

Lemma rotate_1_head l x : l !! 0%nat = Some x → drop 1 l ++ [x] = rotate 1 l.
Proof.
  destruct l as [|y [|z l]]; intros [= <-]; [done|].
  unfold rotate. rewrite Nat.mod_small by (simpl; lia). done.
Qed.

Lemma rotate_last l x :
  l !! (length l - 1)%nat = Some x →
  x :: take (length l - 1) l = rotate (length l - 1) l.
Proof.
  intros Hx. assert (Hlen : (0 < length l)%nat).
  { apply lookup_lt_Some in Hx. lia. }
  unfold rotate. rewrite Nat.mod_small by lia.
  rewrite (drop_S l x (length l - 1)) by done.
  replace (S (length l - 1)) with (length l) by lia.
  by rewrite drop_all.
Qed.

Lemma Head_elements q :
  wf q → nowrap q → m_CurrSize q ≠ 0 → Head q = elements q !! 0%nat.
Proof.
  intros Hwf Hnw Hne. pose proof Hwf as (HN & Hs & Hh0 & Hh).
  rewrite elements_lookup by (done || lia).
  change (Z.of_nat 0) with 0. rewrite phys_0 by (done || lia).
  by apply arr_at_lookup.
Qed.

Lemma Back_elements q :
  wf q → nowrap q → m_CurrSize q ≠ 0 →
  Back q = elements q !! Z.to_nat (m_CurrSize q - 1).
Proof.
  intros Hwf Hnw Hne. pose proof Hwf as (HN & Hs & Hh0 & Hh).
  assert (Hpos : 0 < Capacity q) by lia.
  rewrite elements_lookup by (done || lia).
  unfold Back. rewrite Back_slot_Some by done. simpl.
  unfold nowrap in Hnw. rewrite wrap_small by lia.
  rewrite arr_at_lookup by (apply Z.mod_pos_bound; lia).
  do 2 f_equal. unfold phys. apply (mod_shift _ _ 1). lia.
Qed.

Lemma rotate_forward_spec (L : Z) :
  L ≠ 0 → rotates_by L 1 (@rotate_forward A).
Proof.
  intros HL q Hwf Hnw Hsz. pose proof Hwf as (HN & Hs & Hh0 & Hh).
  pose proof (length_elements q Hwf) as Hlen. unfold Length, Size in Hlen.
  unfold rotate_forward. rewrite Head_elements by (done || lia).
  destruct (lookup_lt_is_Some_2 (elements q) 0%nat) as [x Hx]; [lia|].
  rewrite Hx. simpl.
  destruct (PopHead_spec q Hwf Hnw) as (q1 & -> & Hwf1 & Hcap1 & Hs1 & He1).
  simpl.
  destruct (PushBack_spec q1 x Hwf1) as (q2 & -> & Hwf2 & Hcap2 & Hs2 & He2);
    [by eapply nowrap_Capacity|lia|].
  exists q2. split_and!; [done|split; [done|congruence]|lia|].
  rewrite He2, decide_False, He1 by lia. by apply rotate_1_head.
Qed.

Lemma rotate_backward_spec (L : Z) :
  L ≠ 0 → rotates_by L (Z.to_nat (L - 1)) (@rotate_backward A).
Proof.
  intros HL q Hwf Hnw Hsz. pose proof Hwf as (HN & Hs & Hh0 & Hh).
  pose proof (length_elements q Hwf) as Hlen. unfold Length, Size in Hlen.
  unfold rotate_backward. rewrite Back_elements by (done || lia).
  destruct (lookup_lt_is_Some_2 (elements q) (Z.to_nat (m_CurrSize q - 1)))
    as [x Hx]; [lia|].
  rewrite Hx. simpl.
  destruct (PopBack_spec q Hwf Hnw) as (q1 & -> & Hwf1 & Hcap1 & Hs1 & He1).
  simpl.
  destruct (PushHead_spec q1 x Hwf1) as (q2 & -> & Hwf2 & Hcap2 & Hs2 & He2);
    [by eapply nowrap_Capacity|lia|].
  exists q2. split_and!; [done|split; [done|congruence]|lia|].
  rewrite He2, He1, take_take, Hcap1, Nat.min_r by lia.
  replace (Z.to_nat (m_CurrSize q - 1)) with (length (elements q) - 1)%nat
    in * by lia.
  replace (Z.to_nat (L - 1)) with (length (elements q) - 1)%nat by lia.
  by apply rotate_last.
Qed.

Lemma loop_rotates (L : Z) (r : nat)
    (body : CacheQueue A → option (CacheQueue A)) (n : nat) :
  rotates_by L r body → rotates_by L (n * r) (loop n body).
Proof.
  intros Hbody. induction n as [|n IH]; intros q Hwf Hnw Hsz.
  - exists q. split_and!; [done|by apply keeps_refl|done|].
    by rewrite rotate_0.
  - destruct (Hbody q Hwf Hnw Hsz) as (q1 & Hq1 & [Hwf1 Hcap1] & Hs1 & He1).
    destruct (IH q1 Hwf1) as (q2 & Hq2 & [Hwf2 Hcap2] & Hs2 & He2);
      [by eapply nowrap_Capacity|done|].
    exists q2. simpl. rewrite Hq1. simpl.
    split_and!; [done|split; [done|congruence]|done|].
    by rewrite He2, He1, rotate_rotate.
Qed.

Lemma Rotate_min q : Rotate q Int.min_signed = Some q.
Proof. unfold Rotate. rewrite int_abs_min. by destruct (Empty q). Qed.

(** [Rotate(k)] shifts the content cyclically to the left by [k] modulo
    the length (to the right for negative [k]). *)
Lemma Rotate_spec q (k : Z) :
  wf q → nowrap q → m_CurrSize q ≠ 0 →
  Int.min_signed < k ≤ Int.max_signed →
  ∃ q', Rotate q k = Some q' ∧ keeps q q' ∧ m_CurrSize q' = m_CurrSize q ∧
        elements q' = rotate (Z.to_nat (k mod m_CurrSize q)) (elements q).
Proof.
  intros Hwf Hnw Hne Hk. pose proof Hwf as (HN & Hs & Hh0 & Hh).
  pose proof (length_elements q Hwf) as Hlen. unfold Length, Size in Hlen.
  pose proof (Z.mod_pos_bound k (m_CurrSize q)) as Hmod.
  unfold Rotate. rewrite (Empty_false q Hne), int_abs_small by done. simpl.
  case_bool_decide as Hz; simpl.
  - assert (k = 0) as -> by lia. exists q.
    split_and!; [done|by apply keeps_refl|done|].
    by rewrite Z.mod_0_l, rotate_0.
  - case_bool_decide as Hpos.
    + destruct (loop_rotates (m_CurrSize q) 1 rotate_forward
                  (Z.to_nat (Z.abs k)) (rotate_forward_spec _ Hne) q)
        as (q' & Hq' & Hkeep & Hs' & He'); [done..|].
      exists q'. split_and!; [done..|]. rewrite He'.
      apply rotate_congr. rewrite Hlen, !Z2Nat.id, Z.mod_mod by lia.
      rewrite Nat2Z.inj_mul, Z2Nat.id by lia. f_equal. lia.
    + destruct (loop_rotates (m_CurrSize q) (Z.to_nat (m_CurrSize q - 1))
                  rotate_backward (Z.to_nat (Z.abs k))
                  (rotate_backward_spec _ Hne) q)
        as (q' & Hq' & Hkeep & Hs' & He'); [done..|].
      exists q'. split_and!; [done..|]. rewrite He'.
      apply rotate_congr. rewrite Hlen, !Z2Nat.id, Z.mod_mod by lia.
      rewrite Nat2Z.inj_mul, !Z2Nat.id by lia.
      apply (mod_shift _ _ (Z.abs k)). lia.
Qed.

End rotation.

(** ** Properties of the container *)

Section properties.
Context {A : Type}.
Implicit Types (q : CacheQueue A) (u x : A) (c l : list A).

Lemma rotate_Permutation (n : nat) l : rotate n l ≡ₚ l.
Proof.
  unfold rotate. rewrite Permutation_app_comm. by rewrite take_drop.
Qed.

Lemma Full_wf_size q : Full q = true → m_CurrSize q = Capacity q.
Proof. unfold Full. by intros ?%bool_decide_eq_true. Qed.

Lemma not_Full_wf_size q : Full q = false → m_CurrSize q ≠ Capacity q.
Proof. unfold Full. by intros ?%bool_decide_eq_false. Qed.

(** C1 — overwrite on full: on a full buffer holding [e0 .. e_{N-1}],
    [PushBack(x)] leaves [e1 .. e_{N-1}, x] and [PushHead(x)] leaves
    [x, e0 .. e_{N-2}]; the length stays [N] in both cases. *)
Theorem overwrite_on_full q x :
  wf q → nowrap q → 0 < Capacity q → Full q = true →
  (∃ q', PushBack q x = Some q' ∧
         elements q' = drop 1 (elements q) ++ [x] ∧
         Length q' = Capacity q) ∧
  (∃ q', PushHead q x = Some q' ∧
         elements q' = x :: take (Z.to_nat (Capacity q - 1)) (elements q) ∧
         Length q' = Capacity q).
Proof.
  intros Hwf Hnw Hpos Hfull%Full_wf_size. split.
  - destruct (PushBack_spec q x) as (q' & Hq' & _ & _ & Hs & He); [done..|].
    exists q'. split_and!; [done| |unfold Length, Size; lia].
    by rewrite He, decide_True.
  - destruct (PushHead_spec q x) as (q' & Hq' & _ & _ & Hs & He); [done..|].
    exists q'. split_and!; [done|done|unfold Length, Size; lia].
Qed.

(** C2 — invariant: whatever sequence of [PushHead], [PushBack],
    [PopHead], [PopBack], [Clear] and [Rotate] calls is made on a freshly
    constructed buffer of capacity [N > 0], every call returns and the
    state reached satisfies [0 <= length <= N] and [0 <= head < N]. *)
Theorem invariant_reachable (N : nat) (d : A) (ops : list (op A)) :
  (0 < N)%nat → Z.of_nat N < SizeT.modulus →
  ∃ q, run (init N d) ops = Some q ∧
       0 ≤ Length q ≤ Z.of_nat N ∧ 0 ≤ HeadOff q < Z.of_nat N.
Proof.
  intros Hpos HN.
  destruct (run_wf (init N d) ops) as (q & Hq & Hwf & Hcap).
  - by apply wf_init.
  - rewrite Capacity_init. lia.
  - rewrite Capacity_init in Hcap. destruct Hwf as (_ & Hs & Hh0 & Hh).
    exists q. unfold Length, Size, HeadOff. split; [done|lia].
Qed.

(** [Reset] never assigns [m_Head]. *)
Lemma Reset_keeps_head q q' : Reset q = Some q' → HeadOff q' = HeadOff q.
Proof.
  unfold Reset. destruct (std_rotate _ _ _ _); simpl; [|done].
  by intros [= <-].
Qed.

(** With at least one slot, the iterators [Reset] hands to [std::rotate]
    never form valid ranges: the middle one is [end()] and the last one
    lies before it. *)
Lemma Reset_undefined q : wf q → 0 < Capacity q → Reset q = None.
Proof.
  intros (HN & Hs & Hh0 & Hh) Hpos. unfold Reset, std_rotate.
  rewrite decide_False; [done|]. unfold Capacity in *. lia.
Qed.

(** C5 — rotation equivalence: on a non-empty buffer of length [L],
    [Rotate] by any multiple of [L] restores the logical order, and so
    does [Rotate(k)] followed by [Rotate(-k)]. *)
Theorem Rotate_restores q :
  wf q → nowrap q → Length q ≠ 0 →
  (∀ m : Z, Int.in_range (m * Length q) →
     ∃ q', Rotate q (m * Length q) = Some q' ∧ elements q' = elements q) ∧
  (∀ k : Z, Int.in_range k → Int.in_range (- k) →
     ∃ q1 q2, Rotate q k = Some q1 ∧ Rotate q1 (- k) = Some q2 ∧
              elements q2 = elements q).
Proof.
  intros Hwf Hnw Hne. unfold Length, Size in *.
  pose proof Hwf as (HN & Hs & Hh0 & Hh).
  pose proof (length_elements q Hwf) as Hlen. unfold Length, Size in Hlen.
  split.
  - intros m [Hlo Hhi].
    destruct (decide (m * m_CurrSize q = Int.min_signed)) as [->|Hmin].
    { exists q. by rewrite Rotate_min. }
    destruct (Rotate_spec q (m * m_CurrSize q)) as (q' & Hq' & _ & _ & He);
      [done|done|done|lia|].
    exists q'. split; [done|].
    by rewrite He, Z.mod_mul, rotate_0 by done.
  - intros k [Hlo Hhi] [Hlo' Hhi'].
    unfold Int.min_signed, Int.max_signed in *.
    destruct (Rotate_spec q k) as (q1 & Hq1 & [Hwf1 Hcap1] & Hs1 & He1);
      [done|done|done|unfold Int.min_signed, Int.max_signed; lia|].
    destruct (Rotate_spec q1 (- k)) as (q2 & Hq2 & _ & _ & He2);
      [done|by eapply nowrap_Capacity|lia
      |unfold Int.min_signed, Int.max_signed; lia|].
    exists q1, q2. split_and!; [done|done|].
    rewrite He2, He1, rotate_rotate, Hs1.
    rewrite <- (rotate_0 (elements q)) at 2. apply rotate_congr.
    pose proof (Z.mod_pos_bound k (m_CurrSize q)).
    pose proof (Z.mod_pos_bound (- k) (m_CurrSize q)).
    rewrite Hlen, Nat2Z.inj_add, !Z2Nat.id by lia.
    rewrite <- Zplus_mod. replace (k + - k) with 0 by lia. done.
Qed.

(** C6 — push/pop inverse: on a buffer that is not full, [PushBack(x)]
    followed by [PopBack()] restores the length and leaves the logical
    elements unchanged in value and order. *)
Theorem PushBack_PopBack q x :
  wf q → nowrap q → Full q = false →
  ∃ q1 q2, PushBack q x = Some q1 ∧ PopBack q1 = Some q2 ∧
           Length q2 = Length q ∧ elements q2 = elements q.
Proof.
  intros Hwf Hnw Hnf%not_Full_wf_size. pose proof Hwf as (HN & Hs & Hh0 & Hh).
  pose proof (length_elements q Hwf) as Hlen. unfold Length, Size in Hlen.
  destruct (PushBack_spec q x) as (q1 & Hq1 & Hwf1 & Hcap1 & Hs1 & He1);
    [done|done|lia|].
  destruct (PopBack_spec q1) as (q2 & Hq2 & _ & _ & Hs2 & He2);
    [done|by eapply nowrap_Capacity|].
  exists q1, q2. split_and!; [done|done|unfold Length, Size; lia|].
  rewrite He2, He1, decide_False by done.
  replace (Z.to_nat (m_CurrSize q1 - 1)) with (length (elements q)) by lia.
  by rewrite take_app_length.
Qed.

(** [n] calls of [PopHead] on a buffer holding at least [n] elements move
    the head to the slot of logical index [n] and touch nothing else. *)
Lemma PopHead_n q (n : nat) :
  wf q → 0 < Capacity q → Z.of_nat n ≤ m_CurrSize q →
  ∃ q', loop n PopHead q = Some q' ∧ wf q' ∧
        m_CircleQ q' = m_CircleQ q ∧ m_Head q' = phys q (Z.of_nat n) ∧
        m_CurrSize q' = m_CurrSize q - Z.of_nat n.
Proof.
  revert q. induction n as [|n IH]; intros q Hwf Hpos Hn.
  - exists q. split_and!; [done|done|done| |lia].
    by rewrite phys_0.
  - pose proof Hwf as (HN & Hs & Hh0 & Hh).
    simpl. rewrite PopHead_nonempty by (done || lia). simpl.
    replace ((m_Head q + 1) mod Capacity q) with (phys q 1) by done.
    pose proof (phys_range q 1 Hpos) as Hpr.
    destruct (wf_mk q (m_CircleQ q) (phys q 1) (m_CurrSize q - 1))
      as [Hwf1 Hcap1]; [done|lia..|].
    destruct (IH _ Hwf1) as (q' & Hq' & Hwf' & Hc' & Hh' & Hs');
      [lia|simpl; lia|].
    exists q'. split_and!; [done|done|done| |simpl in Hs'; lia].
    rewrite Hh', (phys_rebase q _ 1) by done. f_equal. lia.
Qed.

(** C7 — indexing: [operator[](i)] for [i < Length()] is the element at
    the front after [i] calls of [PopHead] on a copy.  For any [i] the
    subscript is [(m_Head + i + Capacity()) % Capacity()] computed in
    [size_t]: an in-range slot, equal to [(m_Head + i) mod N] as long as
    the sum does not wrap. *)
Theorem index_consistency q :
  wf q → nowrap q → 0 < Capacity q →
  (∀ i : Z, 0 ≤ i < Length q →
     ∃ x, at_ q i = Some x ∧
          (q' ← loop (Z.to_nat i) PopHead q; Head q') = Some x) ∧
  (∀ i : Z, 0 ≤ i < SizeT.modulus →
     ∃ s, index_slot q i = Some s ∧ 0 ≤ s < Capacity q ∧
          s = SizeT.wrap (m_Head q + i + Capacity q) mod Capacity q ∧
          (m_Head q + i + Capacity q < SizeT.modulus →
           s = (m_Head q + i) mod Capacity q)).
Proof.
  intros Hwf Hnw Hpos. pose proof Hwf as (HN & Hs & Hh0 & Hh). split.
  - intros i Hi. unfold Length, Size in Hi.
    destruct (PopHead_n q (Z.to_nat i)) as (q' & Hq' & Hwf' & Hc' & Hh' & _);
      [done|done|lia|].
    rewrite Z2Nat.id in Hh' by lia.
    destruct (at_is_Some q i Hpos) as [x Hx].
    exists x. split; [done|]. rewrite Hq'. simpl.
    unfold Head. rewrite Hc', Hh', <- Hx.
    rewrite at_phys by (done || lia).
    apply arr_at_lookup. by apply phys_range.
  - intros i Hi. eexists. split; [by apply index_slot_Some|].
    split; [by apply Z.mod_pos_bound|]. split; [done|].
    intros Hsum. rewrite wrap_small by lia. apply (mod_shift _ _ 1). lia.
Qed.

Lemma push_no_slot q u :
  wf q → Capacity q = 0 → PushHead q u = None ∧ PushBack q u = None.
Proof.
  intros (HN & Hs & Hh0 & Hh) Hz. unfold PushHead, PushBack.
  rewrite Empty_true by lia. unfold arr_store.
  rewrite decide_False; [done|]. unfold Capacity in Hz. lia.
Qed.

Lemma apply_op_count q (o : op A) q' :
  wf q → Capacity q + 1 < SizeT.modulus → apply_op q o = Some q' →
  keeps q q' ∧ m_CurrSize q' = spec_count (Capacity q) (m_CurrSize q) o.
Proof.
  intros Hwf HN1 Hq'. pose proof Hwf as (HN & Hs & Hh0 & Hh).
  destruct o as [u|u| | | |k]; simpl in *.
  - destruct (decide (Capacity q = 0)) as [Hz|Hnz].
    { destruct (push_no_slot q u Hwf Hz). congruence. }
    destruct (PushHead_wf q u) as (q1 & Hq1 & Hk & _ & Hs1); [done|lia|].
    assert (q1 = q') as -> by congruence. split; [done|].
    rewrite Hs1. case_decide; [lia|]. rewrite wrap_small; lia.
  - destruct (decide (Capacity q = 0)) as [Hz|Hnz].
    { destruct (push_no_slot q u Hwf Hz). congruence. }
    destruct (PushBack_wf q u) as (q1 & Hq1 & Hk & _ & Hs1); [done|lia|].
    assert (q1 = q') as -> by congruence. split; [done|].
    rewrite Hs1. repeat case_decide; [lia..|]. rewrite wrap_small; lia.
  - destruct (PopHead_wf q Hwf) as (q1 & Hq1 & Hk & _ & Hs1).
    assert (q1 = q') as -> by congruence. done.
  - destruct (PopBack_wf q Hwf) as (q1 & Hq1 & Hk & _ & Hs1).
    assert (q1 = q') as -> by congruence. done.
  - destruct (Clear_spec q Hwf) as (q1 & Hq1 & Hwf1 & Hcap1 & Hs1 & _).
    assert (q1 = q') as -> by congruence. by split.
  - destruct (Rotate_wf q k Hwf) as (q1 & Hq1 & Hk & Hs1).
    assert (q1 = q') as -> by congruence. done.
Qed.

Lemma run_count q (ops : list (op A)) q' :
  wf q → Capacity q + 1 < SizeT.modulus → run q ops = Some q' →
  wf q' ∧ m_CurrSize q' = fold_left (spec_count (Capacity q)) ops (m_CurrSize q).
Proof.
  revert q. induction ops as [|o ops IH]; intros q Hwf HN1 Hrun; simpl in *.
  - by assert (q = q') as -> by congruence.
  - destruct (apply_op q o) as [q1|] eqn:Hq1; simpl in Hrun; [|done].
    destruct (apply_op_count q o q1) as [[Hwf1 Hcap1] Hs1]; [done..|].
    destruct (IH q1) as [Hwf' Hs']; [done|lia|done|].
    split; [done|]. by rewrite Hs', Hcap1, Hs1.
Qed.

(** C8 — [Length()] is the current element count: after any sequence of
    calls on a fresh buffer it equals the number of elements pushed and
    not yet popped or overwritten, and it is the number of elements the
    documented iteration visits. *)
Theorem Length_counts (N : nat) (d : A) (ops : list (op A)) q :
  Z.of_nat N + 1 < SizeT.modulus →
  run (init N d) ops = Some q →
  Length q = fold_left (spec_count (Z.of_nat N)) ops 0 ∧
  Z.of_nat (length (elements q)) = Length q.
Proof.
  intros HN Hrun.
  destruct (run_count (init N d) ops q) as [Hwf Hs].
  - apply wf_init. lia.
  - by rewrite Capacity_init.
  - done.
  - rewrite Capacity_init in Hs. split; [done|].
    rewrite length_elements by done.
    destruct Hwf as (_ & ? & _). unfold Length, Size. lia.
Qed.

(** C9 — [Rotate(k)] returns and leaves [Length()] unchanged, for every
    [k] and every state: empty, partially filled or full. *)
Theorem Rotate_keeps_Length q (k : Z) :
  wf q → ∃ q', Rotate q k = Some q' ∧ Length q' = Length q.
Proof.
  intros Hwf. destruct (Rotate_wf q k Hwf) as (q' & Hq' & _ & Hs).
  by exists q'.
Qed.

(** C10 — every subscript the public operations compute lies in
    [0, N): those of [Head], [Back], [BackOff], [operator[]] for any
    index, and the slots [PushHead] and [PushBack] store to; the reads
    therefore return a value also on an empty buffer, where [Back] reads
    slot [(head + N - 1) mod N]. *)
Theorem slots_in_range q :
  wf q → 0 < Capacity q →
  (0 ≤ HeadOff q < Capacity q ∧ is_Some (Head q)) ∧
  ((∃ s, Back_slot q = Some s ∧ 0 ≤ s < Capacity q) ∧ is_Some (Back q)) ∧
  (∃ s, BackOff q = Some s ∧ 0 ≤ s < Capacity q) ∧
  (∀ i : Z, (∃ s, index_slot q i = Some s ∧ 0 ≤ s < Capacity q) ∧
            is_Some (at_ q i)) ∧
  (∀ u, ∃ q' s, PushHead q u = Some q' ∧ 0 ≤ s < Capacity q ∧
                m_CircleQ q' = <[Z.to_nat s := u]> (m_CircleQ q)) ∧
  (∀ u, ∃ q' s, PushBack q u = Some q' ∧ 0 ≤ s < Capacity q ∧
                m_CircleQ q' = <[Z.to_nat s := u]> (m_CircleQ q)) ∧
  (Empty q = true → 2 * Capacity q ≤ SizeT.modulus →
   Back_slot q = Some ((m_Head q + Capacity q - 1) mod Capacity q)).
Proof.
  intros Hwf Hpos. pose proof Hwf as (HN & Hs & Hh0 & Hh).
  split_and!.
  - unfold HeadOff. lia.
  - unfold HeadOff. lia.
  - by apply Head_is_Some.
  - eexists. split; [by apply Back_slot_Some|]. by apply Z.mod_pos_bound.
  - by apply Back_is_Some.
  - eexists. split; [by apply BackOff_Some|]. by apply Z.mod_pos_bound.
  - intros i. split; [|by apply at_is_Some].
    eexists. split; [by apply index_slot_Some|]. by apply Z.mod_pos_bound.
  - intros u.
    destruct (PushHead_wf q u) as (q' & Hq' & _ & (s & Hs' & Hst) & _);
      [done..|].
    by exists q', s.
  - intros u.
    destruct (PushBack_wf q u) as (q' & Hq' & _ & (s & Hs' & Hst) & _);
      [done..|].
    by exists q', s.
  - intros He%bool_decide_eq_true Hnw. rewrite Back_slot_Some by done.
    rewrite He, Z.add_0_r, wrap_small by lia. done.
Qed.

End properties.

(** ** Concrete instances *)

(** The scenario of a capacity-3 buffer: push 1, 2, 3 at the back, push 4
    (1 is discarded), pop the front, push 9 at the front, rotate by one. *)
Example scenario_capacity_3 :
  elements <$> run (init 3 0) [OpPushBack 1; OpPushBack 2; OpPushBack 3]
    = Some [1; 2; 3] ∧
  elements <$> run (init 3 0)
                 [OpPushBack 1; OpPushBack 2; OpPushBack 3; OpPushBack 4]
    = Some [2; 3; 4] ∧
  elements <$> run (init 3 0)
                 [OpPushBack 1; OpPushBack 2; OpPushBack 3; OpPushBack 4;
                  OpPopHead]
    = Some [3; 4] ∧
  elements <$> run (init 3 0)
                 [OpPushBack 1; OpPushBack 2; OpPushBack 3; OpPushBack 4;
                  OpPopHead; OpPushHead 9]
    = Some [9; 3; 4] ∧
  elements <$> run (init 3 0)
                 [OpPushBack 1; OpPushBack 2; OpPushBack 3; OpPushBack 4;
                  OpPopHead; OpPushHead 9; OpRotate 1]
    = Some [3; 4; 9].
Proof. by vm_compute. Qed.

(** C3 — [Reset] neither realigns the storage nor resets the head.  On the
    capacity-3 buffer left by [PushBack] of 1, 2, 3, 4 (content [2; 3; 4],
    head at slot 1) the call [std::rotate(begin(), end(), begin() + 1)] has
    its middle iterator after its last one, which is outside the contract of
    [std::rotate]; and [Reset] holds no assignment to [m_Head], so
    [HeadOff()] is still 1 and not 0. *)
Example Reset_does_not_realign :
  ∃ q : CacheQueue Z,
    run (init 3 0) [OpPushBack 1; OpPushBack 2; OpPushBack 3; OpPushBack 4]
      = Some q ∧
    elements q = [2; 3; 4] ∧ HeadOff q = 1 ∧ Reset q = None.
Proof. eexists. split; [reflexivity|]. by vm_compute. Qed.

(** C7, large indices: the slot is not [(head + i) mod N] for every
    [i >= length].  With capacity 3 and the head at slot 0, index [2^64 - 1]
    makes [m_Head + nIndex + Capacity()] wrap to 2, so [operator[]] reads
    slot 2 (holding 30), whereas [(head + i) mod N] is slot 0 (holding
    10). *)
Lemma index_wraps_before_reduction :
  wf (mkCacheQueue [10; 20; 30] 0 3) ∧
  Length (mkCacheQueue [10; 20; 30] 0 3) ≤ 2 ^ 64 - 1 < SizeT.modulus ∧
  index_slot (mkCacheQueue [10; 20; 30] 0 3) (2 ^ 64 - 1) = Some 2 ∧
  (m_Head (mkCacheQueue [10; 20; 30] 0 3) + (2 ^ 64 - 1))
    mod Capacity (mkCacheQueue [10; 20; 30] 0 3) = 0 ∧
  at_ (mkCacheQueue [10; 20; 30] 0 3) (2 ^ 64 - 1) = Some 30 ∧
  arr_at [10; 20; 30] 0 = Some 10.
Proof.
  split_and!; try reflexivity; try (by vm_compute).
Qed.

Ltac concrete_state :=
  unfold wf, nowrap, Capacity, SizeT.modulus, Int.in_range, Int.min_signed,
    Int.max_signed, Length, Size; simpl; lia.

Lemma overwrite_on_full_witness :
  (∃ q', PushBack (mkCacheQueue [4; 2; 3] 1 3) 5 = Some q' ∧
         elements q' = drop 1 (elements (mkCacheQueue [4; 2; 3] 1 3)) ++ [5] ∧
         Length q' = Capacity (mkCacheQueue [4; 2; 3] 1 3)) ∧
  (∃ q', PushHead (mkCacheQueue [4; 2; 3] 1 3) 5 = Some q' ∧
         elements q' =
           5 :: take (Z.to_nat (Capacity (mkCacheQueue [4; 2; 3] 1 3) - 1))
                  (elements (mkCacheQueue [4; 2; 3] 1 3)) ∧
         Length q' = Capacity (mkCacheQueue [4; 2; 3] 1 3)).
Proof.
  apply (overwrite_on_full (mkCacheQueue [4; 2; 3] 1 3) 5);
    [concrete_state | concrete_state | concrete_state | reflexivity].
Defined.

Lemma invariant_reachable_witness :
  ∃ q, run (init 3 0) [OpPushBack 1; OpPushHead 2; OpRotate (-4); OpPopBack]
         = Some q ∧
       0 ≤ Length q ≤ Z.of_nat 3 ∧ 0 ≤ HeadOff q < Z.of_nat 3.
Proof.
  apply (invariant_reachable 3 0
           [OpPushBack 1; OpPushHead 2; OpRotate (-4); OpPopBack]);
    [lia | concrete_state].
Defined.

Lemma Rotate_restores_witness :
  (∀ m : Z, Int.in_range (m * Length (mkCacheQueue [9; 3; 4; 0] 0 3)) →
     ∃ q', Rotate (mkCacheQueue [9; 3; 4; 0] 0 3)
             (m * Length (mkCacheQueue [9; 3; 4; 0] 0 3)) = Some q' ∧
           elements q' = elements (mkCacheQueue [9; 3; 4; 0] 0 3)) ∧
  (∀ k : Z, Int.in_range k → Int.in_range (- k) →
     ∃ q1 q2, Rotate (mkCacheQueue [9; 3; 4; 0] 0 3) k = Some q1 ∧
              Rotate q1 (- k) = Some q2 ∧
              elements q2 = elements (mkCacheQueue [9; 3; 4; 0] 0 3)).
Proof.
  apply (Rotate_restores (mkCacheQueue [9; 3; 4; 0] 0 3));
    [concrete_state | concrete_state | concrete_state].
Defined.

Lemma PushBack_PopBack_witness :
  ∃ q1 q2, PushBack (mkCacheQueue [1; 2; 0] 0 2) 7 = Some q1 ∧
           PopBack q1 = Some q2 ∧
           Length q2 = Length (mkCacheQueue [1; 2; 0] 0 2) ∧
           elements q2 = elements (mkCacheQueue [1; 2; 0] 0 2).
Proof.
  apply (PushBack_PopBack (mkCacheQueue [1; 2; 0] 0 2) 7);
    [concrete_state | concrete_state | reflexivity].
Defined.

Lemma index_consistency_witness :
  (∀ i : Z, 0 ≤ i < Length (mkCacheQueue [4; 2; 3] 1 3) →
     ∃ x, at_ (mkCacheQueue [4; 2; 3] 1 3) i = Some x ∧
          (q' ← loop (Z.to_nat i) PopHead (mkCacheQueue [4; 2; 3] 1 3);
           Head q') = Some x) ∧
  (∀ i : Z, 0 ≤ i < SizeT.modulus →
     ∃ s, index_slot (mkCacheQueue [4; 2; 3] 1 3) i = Some s ∧
          0 ≤ s < Capacity (mkCacheQueue [4; 2; 3] 1 3) ∧
          s = SizeT.wrap (m_Head (mkCacheQueue [4; 2; 3] 1 3) + i
                          + Capacity (mkCacheQueue [4; 2; 3] 1 3))
                mod Capacity (mkCacheQueue [4; 2; 3] 1 3) ∧
          (m_Head (mkCacheQueue [4; 2; 3] 1 3) + i
             + Capacity (mkCacheQueue [4; 2; 3] 1 3) < SizeT.modulus →
           s = (m_Head (mkCacheQueue [4; 2; 3] 1 3) + i)
                 mod Capacity (mkCacheQueue [4; 2; 3] 1 3))).
Proof.
  apply (index_consistency (mkCacheQueue [4; 2; 3] 1 3));
    [concrete_state | concrete_state | concrete_state].
Defined.

Lemma Length_counts_witness :
  Length (mkCacheQueue [4; 2; 3] 2 2) =
    fold_left (spec_count (Z.of_nat 3))
      [OpPushBack 1; OpPushBack 2; OpPushBack 3; OpPushBack 4; OpPopHead] 0 ∧
  Z.of_nat (length (elements (mkCacheQueue [4; 2; 3] 2 2))) =
    Length (mkCacheQueue [4; 2; 3] 2 2).
Proof.
  apply (Length_counts 3 0
           [OpPushBack 1; OpPushBack 2; OpPushBack 3; OpPushBack 4; OpPopHead]
           (mkCacheQueue [4; 2; 3] 2 2));
    [concrete_state | reflexivity].
Defined.

Lemma Rotate_keeps_Length_witness :
  ∃ q', Rotate (mkCacheQueue [9; 3; 4; 0] 0 3) (-5) = Some q' ∧
        Length q' = Length (mkCacheQueue [9; 3; 4; 0] 0 3).
Proof.
  apply (Rotate_keeps_Length (mkCacheQueue [9; 3; 4; 0] 0 3) (-5)).
  concrete_state.
Defined.

Lemma slots_in_range_witness :
  (0 ≤ HeadOff (mkCacheQueue [7; 0; 0] 1 0) < Capacity (mkCacheQueue [7; 0; 0] 1 0) ∧ is_Some (Head (mkCacheQueue [7; 0; 0] 1 0))) ∧
  ((∃ s, Back_slot (mkCacheQueue [7; 0; 0] 1 0) = Some s ∧ 0 ≤ s < Capacity (mkCacheQueue [7; 0; 0] 1 0)) ∧
   is_Some (Back (mkCacheQueue [7; 0; 0] 1 0))) ∧
  (∃ s, BackOff (mkCacheQueue [7; 0; 0] 1 0) = Some s ∧ 0 ≤ s < Capacity (mkCacheQueue [7; 0; 0] 1 0)) ∧
  (∀ i : Z, (∃ s, index_slot (mkCacheQueue [7; 0; 0] 1 0) i = Some s ∧ 0 ≤ s < Capacity (mkCacheQueue [7; 0; 0] 1 0)) ∧
            is_Some (at_ (mkCacheQueue [7; 0; 0] 1 0) i)) ∧
  (∀ u, ∃ q' s, PushHead (mkCacheQueue [7; 0; 0] 1 0) u = Some q' ∧ 0 ≤ s < Capacity (mkCacheQueue [7; 0; 0] 1 0) ∧
                m_CircleQ q' = <[Z.to_nat s := u]> (m_CircleQ (mkCacheQueue [7; 0; 0] 1 0))) ∧
  (∀ u, ∃ q' s, PushBack (mkCacheQueue [7; 0; 0] 1 0) u = Some q' ∧ 0 ≤ s < Capacity (mkCacheQueue [7; 0; 0] 1 0) ∧
                m_CircleQ q' = <[Z.to_nat s := u]> (m_CircleQ (mkCacheQueue [7; 0; 0] 1 0))) ∧
  (Empty (mkCacheQueue [7; 0; 0] 1 0) = true → 2 * Capacity (mkCacheQueue [7; 0; 0] 1 0) ≤ SizeT.modulus →
   Back_slot (mkCacheQueue [7; 0; 0] 1 0) =
     Some ((m_Head (mkCacheQueue [7; 0; 0] 1 0) + Capacity (mkCacheQueue [7; 0; 0] 1 0) - 1) mod Capacity (mkCacheQueue [7; 0; 0] 1 0))).
Proof.
  apply (slots_in_range (mkCacheQueue [7; 0; 0] 1 0)); [concrete_state | concrete_state].
Defined.

(** ** Further properties of the operations *)

Section ends.
Context {A : Type}.
Implicit Types (q : CacheQueue A) (u x : A) (c l : list A).

(** X1 — on a buffer that is not full, [PushHead(x)] followed by
    [PopHead()] restores the length and the logical content. *)
Theorem PushHead_PopHead q x :
  wf q → nowrap q → Full q = false →
  ∃ q1 q2, PushHead q x = Some q1 ∧ PopHead q1 = Some q2 ∧
           Length q2 = Length q ∧ elements q2 = elements q.
Proof.
  intros Hwf Hnw Hnf%not_Full_wf_size. pose proof Hwf as (HN & Hs & Hh0 & Hh).
  pose proof (length_elements q Hwf) as Hlen. unfold Length, Size in Hlen.
  destruct (PushHead_spec q x) as (q1 & Hq1 & Hwf1 & Hcap1 & Hs1 & He1);
    [done|done|lia|].
  destruct (PopHead_spec q1) as (q2 & Hq2 & _ & _ & Hs2 & He2);
    [done|by eapply nowrap_Capacity|].
  exists q1, q2. split_and!; [done|done|unfold Length, Size; lia|].
  rewrite He2, He1. simpl. rewrite drop_0. apply take_ge. lia.
Qed.

(** X2 — on a non-empty buffer [Head()] is the first and [Back()] the last
    element of the logical content: they are what [operator[]] returns at
    index [0] and at index [Length() - 1]. *)
Theorem Head_Back_ends q :
  wf q → nowrap q → Length q ≠ 0 →
  (∃ x, Head q = Some x ∧ elements q !! 0%nat = Some x ∧ at_ q 0 = Some x) ∧
  (∃ y, Back q = Some y ∧
        elements q !! (length (elements q) - 1)%nat = Some y ∧
        at_ q (Length q - 1) = Some y).
Proof.
  intros Hwf Hnw Hne. unfold Length, Size in *.
  pose proof Hwf as (HN & Hs & Hh0 & Hh).
  pose proof (length_elements q Hwf) as Hlen. unfold Length, Size in Hlen.
  destruct (elements_total q Hwf) as [_ Hat]. unfold Length, Size in Hat.
  split.
  - destruct (lookup_lt_is_Some_2 (elements q) 0%nat) as [x Hx]; [lia|].
    exists x. rewrite Head_elements by (done || lia).
    split_and!; [done|done|]. rewrite <- Hx. symmetry. apply (Hat 0%nat). lia.
  - destruct (lookup_lt_is_Some_2 (elements q) (Z.to_nat (m_CurrSize q - 1)))
      as [y Hy]; [lia|].
    exists y. rewrite Back_elements by (done || lia).
    replace (length (elements q) - 1)%nat
      with (Z.to_nat (m_CurrSize q - 1)) by lia.
    split_and!; [done|done|]. rewrite <- Hy. symmetry.
    rewrite Hat by lia. f_equal. lia.
Qed.

(** X3 — [BackOff()] is the subscript [Back()] reads, in every state: the
    two expressions differ only in the order of [- 1] and
    [+ Capacity()]. *)
Theorem BackOff_Back_slot q : BackOff q = Back_slot q.
Proof.
  unfold BackOff, Back_slot, SizeT.sub, SizeT.add.
  rewrite wrap_sub_l, !wrap_add_l, wrap_sub_l. do 2 f_equal. lia.
Qed.

(** X4 — a push is visible at its end at once, whatever the fill level:
    after [PushBack(x)] the buffer is not empty and [Back()] is [x]; after
    [PushHead(x)] it is not empty and [Head()] is [x]. *)
Theorem push_observed q x :
  wf q → nowrap q → 0 < Capacity q →
  (∃ q', PushBack q x = Some q' ∧ Empty q' = false ∧ Back q' = Some x) ∧
  (∃ q', PushHead q x = Some q' ∧ Empty q' = false ∧ Head q' = Some x).
Proof.
  intros Hwf Hnw Hpos. pose proof Hwf as (HN & Hs & Hh0 & Hh). split.
  - destruct (PushBack_spec q x) as (q' & Hq' & Hwf' & Hcap' & Hs' & He');
      [done..|].
    assert (Hnw' : nowrap q') by (by eapply nowrap_Capacity).
    assert (Hne : m_CurrSize q' ≠ 0) by lia.
    pose proof (length_elements q' Hwf') as Hlen. unfold Length, Size in Hlen.
    exists q'. split_and!; [done|by apply Empty_false|].
    rewrite Back_elements by done. rewrite He' in Hlen |- *.
    rewrite length_app in Hlen. simpl in Hlen.
    rewrite lookup_app_r by lia.
    by replace (Z.to_nat (m_CurrSize q' - 1) - _)%nat with 0%nat by lia.
  - destruct (PushHead_spec q x) as (q' & Hq' & Hwf' & Hcap' & Hs' & He');
      [done..|].
    assert (Hnw' : nowrap q') by (by eapply nowrap_Capacity).
    assert (Hne : m_CurrSize q' ≠ 0) by lia.
    exists q'. split_and!; [done|by apply Empty_false|].
    rewrite Head_elements by done. by rewrite He'.
Qed.

(** X5 — [PopHead()] removes the first logical element and [PopBack()] the
    last one, keeping the others in order; both leave the storage as it is
    (the vacated slot keeps its value), and on an empty buffer both change
    nothing. *)
Theorem pop_content q :
  wf q → nowrap q →
  (∃ q', PopHead q = Some q' ∧ elements q' = drop 1 (elements q) ∧
         Length q' = Z.max (Length q - 1) 0 ∧ m_CircleQ q' = m_CircleQ q) ∧
  (∃ q', PopBack q = Some q' ∧
         elements q' = take (length (elements q) - 1) (elements q) ∧
         Length q' = Z.max (Length q - 1) 0 ∧ m_CircleQ q' = m_CircleQ q ∧
         HeadOff q' = HeadOff q) ∧
  (Empty q = true → PopHead q = Some q ∧ PopBack q = Some q).
Proof.
  intros Hwf Hnw. pose proof Hwf as (HN & Hs & Hh0 & Hh).
  pose proof (length_elements q Hwf) as Hlen. unfold Length, Size in Hlen.
  split_and!.
  - destruct (PopHead_spec q) as (q' & Hq' & _ & _ & Hs' & He'); [done..|].
    destruct (PopHead_wf q Hwf) as (q1 & Hq1 & _ & Hc1 & _).
    assert (q1 = q') as -> by congruence.
    exists q'. by split_and!.
  - destruct (PopBack_spec q) as (q' & Hq' & _ & _ & Hs' & He'); [done..|].
    destruct (PopBack_wf q Hwf) as (q1 & Hq1 & _ & Hc1 & _).
    assert (q1 = q') as -> by congruence.
    exists q'. split_and!; [done| |done|done|].
    + rewrite He'. f_equal. lia.
    + destruct (decide (m_CurrSize q = 0)) as [He|Hne].
      * rewrite PopBack_empty in Hq' by done. congruence.
      * rewrite PopBack_nonempty in Hq' by done. by injection Hq' as <-.
  - intros He%bool_decide_eq_true.
    by rewrite PopHead_empty, PopBack_empty.
Qed.

(** X6 — with room left, [PushBack(x)] appends [x] to the logical content
    and [PushHead(x)] prepends it; the length grows by one and nothing is
    discarded. *)
Theorem push_with_room q x :
  wf q → nowrap q → Full q = false →
  (∃ q', PushBack q x = Some q' ∧ elements q' = elements q ++ [x] ∧
         Length q' = Length q + 1) ∧
  (∃ q', PushHead q x = Some q' ∧ elements q' = x :: elements q ∧
         Length q' = Length q + 1).
Proof.
  intros Hwf Hnw Hnf%not_Full_wf_size. pose proof Hwf as (HN & Hs & Hh0 & Hh).
  pose proof (length_elements q Hwf) as Hlen. unfold Length, Size in Hlen.
  split.
  - destruct (PushBack_spec q x) as (q' & Hq' & _ & _ & Hs' & He');
      [done|done|lia|].
    exists q'. split_and!; [done| |unfold Length, Size; lia].
    by rewrite He', decide_False.
  - destruct (PushHead_spec q x) as (q' & Hq' & _ & _ & Hs' & He');
      [done|done|lia|].
    exists q'. split_and!; [done| |unfold Length, Size; lia].
    rewrite He'. f_equal. apply take_ge. lia.
Qed.

End ends.

Section storage.
Context {A : Type}.
Implicit Types (q : CacheQueue A) (u x : A) (c l : list A).

Lemma arr_store_length c i u c' :
  arr_store c i u = Some c' → length c' = length c.
Proof.
  unfold arr_store. case_decide; [|done]. intros [= <-]. apply length_insert.
Qed.

Lemma std_rotate_length c (first middle last : Z) c' :
  std_rotate c first middle last = Some c' → length c' = length c.
Proof.
  unfold std_rotate. case_decide as Hr; [|done]. intros [= <-].
  rewrite !length_app, !length_take, !length_drop. lia.
Qed.

Lemma PushHead_Capacity q u q' :
  PushHead q u = Some q' → Capacity q' = Capacity q.
Proof.
  unfold PushHead, Capacity. intros H.
  destruct (Empty q); simplify_option_eq; simpl;
    f_equal; by eapply arr_store_length.
Qed.

Lemma PushBack_Capacity q u q' :
  PushBack q u = Some q' → Capacity q' = Capacity q.
Proof.
  unfold PushBack, Capacity. intros H.
  destruct (Empty q); [|destruct (Full q)]; simplify_option_eq; simpl;
    f_equal; by eapply arr_store_length.
Qed.

Lemma PopHead_Capacity q q' : PopHead q = Some q' → Capacity q' = Capacity q.
Proof.
  unfold PopHead, Capacity. intros H.
  destruct (Empty q); by simplify_option_eq.
Qed.

Lemma PopBack_Capacity q q' : PopBack q = Some q' → Capacity q' = Capacity q.
Proof.
  unfold PopBack, Capacity. intros H.
  destruct (Empty q); by simplify_option_eq.
Qed.

Lemma loop_Capacity (body : CacheQueue A → option (CacheQueue A)) (n : nat) :
  (∀ q q', body q = Some q' → Capacity q' = Capacity q) →
  ∀ q q', loop n body q = Some q' → Capacity q' = Capacity q.
Proof.
  intros Hbody. induction n as [|n IH]; intros q q' Hq'; simpl in Hq'.
  - by injection Hq' as <-.
  - destruct (body q) as [q1|] eqn:Hq1; simpl in Hq'; [|done].
    rewrite (IH _ _ Hq'). by apply Hbody.
Qed.

Lemma Rotate_Capacity q (k : Z) q' :
  Rotate q k = Some q' → Capacity q' = Capacity q.
Proof.
  unfold Rotate. destruct (negb (Empty q)); [|by intros [= <-]].
  simpl. destruct (negb _); [|by intros [= <-]].
  destruct (bool_decide _); apply loop_Capacity; clear.
  - intros q q'. unfold rotate_forward. intros H.
    destruct (Head q) as [x|]; simpl in H; [|done].
    destruct (PopHead q) as [q1|] eqn:Hq1; simpl in H; [|done].
    rewrite (PushBack_Capacity _ _ _ H). by apply PopHead_Capacity.
  - intros q q'. unfold rotate_backward. intros H.
    destruct (Back q) as [x|]; simpl in H; [|done].
    destruct (PopBack q) as [q1|] eqn:Hq1; simpl in H; [|done].
    rewrite (PushHead_Capacity _ _ _ H). by apply PopBack_Capacity.
Qed.

(** X7 — the capacity never changes: whatever the state, every call that
    returns ([PushHead], [PushBack], [PopHead], [PopBack], [Clear],
    [Rotate], in any sequence, and [Reset]) leaves the storage with the
    number of slots it had. *)
Theorem Capacity_constant q (ops : list (op A)) q' :
  run q ops = Some q' →
  Capacity q' = Capacity q ∧
  ∀ q'', Reset q' = Some q'' → Capacity q'' = Capacity q.
Proof.
  intros Hrun.
  assert (Hcap : Capacity q' = Capacity q).
  { revert q Hrun. induction ops as [|o ops IH]; intros q Hrun; simpl in Hrun.
    - by injection Hrun as <-.
    - destruct (apply_op q o) as [q1|] eqn:Hq1; simpl in Hrun; [|done].
      rewrite (IH _ Hrun).
      destruct o; simpl in Hq1;
        eauto using PushHead_Capacity, PushBack_Capacity, PopHead_Capacity,
          PopBack_Capacity, Rotate_Capacity.
      by injection Hq1 as <-. }
  split; [done|]. intros q'' Hr. rewrite <- Hcap.
  unfold Reset in Hr.
  destruct (std_rotate _ _ _ _) as [c|] eqn:Hc; simpl in Hr; [|done].
  injection Hr as <-. unfold Capacity; simpl.
  f_equal. by eapply std_rotate_length.
Qed.

(** X8 — [Reset()] is never a valid call on a buffer with at least one
    slot: it passes [end()] as the middle iterator of [std::rotate] and
    [begin() + m_Head], which lies before it, as the last one. *)
Theorem Reset_outside_contract q :
  wf q → 0 < Capacity q →
  std_rotate (m_CircleQ q) 0 (Capacity q) (m_Head q) = None ∧ Reset q = None.
Proof.
  intros (HN & Hs & Hh0 & Hh) Hpos.
  assert (Hrot : std_rotate (m_CircleQ q) 0 (Capacity q) (m_Head q) = None).
  { unfold std_rotate. rewrite decide_False; [done|]. lia. }
  split; [done|]. unfold Reset. by rewrite Hrot.
Qed.

(** X9 — a buffer without slots: both pushes store to [m_CircleQ[0]] of an
    empty array, [Head()] and [Back()] have no slot to read, and the pops
    and [Rotate] return without changing anything. *)
Theorem zero_capacity q u (k : Z) :
  wf q → Capacity q = 0 →
  PushHead q u = None ∧ PushBack q u = None ∧
  Head q = None ∧ Back q = None ∧
  PopHead q = Some q ∧ PopBack q = Some q ∧ Rotate q k = Some q.
Proof.
  intros Hwf Hz. pose proof Hwf as (HN & Hs & Hh0 & Hh).
  destruct (push_no_slot q u Hwf Hz) as [-> ->].
  assert (He : m_CurrSize q = 0) by lia.
  assert (Hnil : m_CircleQ q = []).
  { apply nil_length_inv. unfold Capacity in Hz. lia. }
  split_and!; [done|done| | | | |].
  - unfold Head. rewrite arr_at_lookup, Hnil by done. done.
  - unfold Back, Back_slot, SizeT.rem. rewrite Hz. done.
  - by apply PopHead_empty.
  - by apply PopBack_empty.
  - unfold Rotate. by rewrite Empty_true.
Qed.

(** X10 — negative offsets: [operator[]] called with [-j] converted to
    [size_t], for [1 <= j <= Capacity()], reads the slot [j] places before
    the head, [(head - j) mod N]; the [+ Capacity()] in the subscript is
    what makes the wrapped sum come out right.  With [j = 1] it is the slot
    the next [PushHead] on a non-empty buffer stores to. *)
Theorem index_negative_offset q (j : Z) :
  wf q → nowrap q → 1 ≤ j ≤ Capacity q →
  index_slot q (SizeT.wrap (- j)) = Some ((m_Head q - j) mod Capacity q) ∧
  index_slot q (SizeT.wrap (- 1)) = Some (head_pred q).
Proof.
  intros Hwf Hnw Hj. pose proof Hwf as (HN & Hs & Hh0 & Hh).
  unfold nowrap in Hnw.
  assert (Hgen : ∀ i, 1 ≤ i ≤ Capacity q →
            index_slot q (SizeT.wrap (- i)) = Some ((m_Head q - i) mod Capacity q)).
  { intros i Hi. rewrite index_slot_Some by lia.
    replace (m_Head q + SizeT.wrap (- i) + Capacity q)
      with (SizeT.wrap (- i) + (m_Head q + Capacity q)) by lia.
    rewrite wrap_add_l.
    replace (- i + (m_Head q + Capacity q))
      with (m_Head q + Capacity q - i) by lia.
    rewrite wrap_small by lia. f_equal. apply (mod_shift _ _ 1). lia. }
  split; [by apply Hgen|].
  etrans; [apply (Hgen 1); lia|]. f_equal. unfold head_pred.
  rewrite wrap_small by lia. symmetry. apply (mod_shift _ _ 1). lia.
Qed.

End storage.

Section rotation_more.
Context {A : Type}.
Implicit Types (q : CacheQueue A) (u x : A) (c l : list A).

(** X11 — [Rotate(k)] on any non-empty buffer, full or not, shifts the
    logical content cyclically: to the left by [k mod L] places, which for a
    negative [k] is a shift to the right by [|k|]; length and capacity stay
    as they are. *)
Theorem Rotate_shifts q (k : Z) :
  wf q → nowrap q → Length q ≠ 0 → Int.min_signed < k ≤ Int.max_signed →
  ∃ q', Rotate q k = Some q' ∧ Length q' = Length q ∧
        Capacity q' = Capacity q ∧
        elements q' = rotate (Z.to_nat (k mod Length q)) (elements q).
Proof.
  intros Hwf Hnw Hne Hk. unfold Length, Size in *.
  destruct (Rotate_spec q k) as (q' & Hq' & [_ Hcap] & Hs & He); [done..|].
  by exists q'.
Qed.

(** X12 — rotations add up: [Rotate(a)] followed by [Rotate(b)] leaves the
    logical content [Rotate(a + b)] leaves. *)
Theorem Rotate_compose q (a b : Z) :
  wf q → nowrap q → Length q ≠ 0 →
  Int.min_signed < a ≤ Int.max_signed →
  Int.min_signed < b ≤ Int.max_signed →
  Int.min_signed < a + b ≤ Int.max_signed →
  ∃ q1 q2 q3, Rotate q a = Some q1 ∧ Rotate q1 b = Some q2 ∧
              Rotate q (a + b) = Some q3 ∧ elements q2 = elements q3.
Proof.
  intros Hwf Hnw Hne Ha Hb Hab. unfold Length, Size in *.
  pose proof Hwf as (HN & Hs & Hh0 & Hh).
  pose proof (length_elements q Hwf) as Hlen. unfold Length, Size in Hlen.
  destruct (Rotate_spec q a) as (q1 & Hq1 & [Hwf1 Hcap1] & Hs1 & He1);
    [done..|].
  destruct (Rotate_spec q1 b) as (q2 & Hq2 & _ & _ & He2);
    [done|by eapply nowrap_Capacity|lia|done|].
  destruct (Rotate_spec q (a + b)) as (q3 & Hq3 & _ & _ & He3); [done..|].
  exists q1, q2, q3. split_and!; [done..|].
  rewrite He2, He1, He3, rotate_rotate, Hs1. apply rotate_congr.
  pose proof (Z.mod_pos_bound a (m_CurrSize q)).
  pose proof (Z.mod_pos_bound b (m_CurrSize q)).
  pose proof (Z.mod_pos_bound (a + b) (m_CurrSize q)).
  rewrite Hlen, Nat2Z.inj_add, !Z2Nat.id by lia.
  by rewrite <- Zplus_mod, Z.mod_mod by lia.
Qed.

Lemma mk_eta q : mkCacheQueue (m_CircleQ q) (m_Head q) (m_CurrSize q) = q.
Proof. by destruct q. Qed.

Lemma arr_at_store_id c (i : Z) x :
  0 ≤ i → arr_at c i = Some x → <[Z.to_nat i := x]> c = c.
Proof.
  intros Hi. rewrite arr_at_lookup by done. apply list_insert_id.
Qed.

(** On a full buffer one forward iteration of [Rotate] writes the front
    value back into the slot it was read from. *)
Lemma rotate_forward_full q :
  wf q → nowrap q → 0 < Capacity q → m_CurrSize q = Capacity q →
  rotate_forward q =
    Some (mkCacheQueue (m_CircleQ q) (phys q 1) (m_CurrSize q)).
Proof.
  intros Hwf Hnw Hpos Hfull. pose proof Hwf as (HN & Hs & Hh0 & Hh).
  unfold nowrap in Hnw. unfold rotate_forward.
  destruct (Head_is_Some q Hwf Hpos) as [x Hx]. rewrite Hx. simpl.
  rewrite PopHead_nonempty by (done || lia). simpl.
  replace ((m_Head q + 1) mod Capacity q) with (phys q 1) by done.
  pose proof (phys_range q 1 Hpos) as Hpr.
  set (q1 := mkCacheQueue (m_CircleQ q) (phys q 1) (m_CurrSize q - 1)).
  assert (Hcap1 : Capacity q1 = Capacity q) by done.
  destruct (decide (Capacity q = 1)) as [H1|Hn1].
  - rewrite PushBack_empty by (rewrite ?Hcap1; simpl; lia).
    assert (m_Head q = 0) as Hh1 by lia.
    assert (phys q 1 = 0) as -> by lia. simpl. do 2 f_equal; [|lia].
    apply (arr_at_store_id _ 0); [done|]. by rewrite <- Hh1.
  - rewrite PushBack_room by (rewrite ?Hcap1; simpl; lia).
    assert (Hslot : back_next q1 = m_Head q).
    { unfold back_next. rewrite Hcap1. simpl.
      rewrite wrap_small by lia. unfold phys.
      rewrite Zplus_mod_idemp_l.
      rewrite (mod_shift _ (m_Head q) 1) by lia. apply Z.mod_small. lia. }
    rewrite Hslot, Hcap1. simpl.
    rewrite (arr_at_store_id _ _ _ Hh0 Hx).
    replace (m_CurrSize q - 1 + 1) with (m_CurrSize q) by lia.
    rewrite wrap_small, Z.min_l by lia. done.
Qed.

Lemma rotate_backward_full q :
  wf q → nowrap q → 0 < Capacity q → m_CurrSize q = Capacity q →
  rotate_backward q =
    Some (mkCacheQueue (m_CircleQ q) (phys q (-1)) (m_CurrSize q)).
Proof.
  intros Hwf Hnw Hpos Hfull. pose proof Hwf as (HN & Hs & Hh0 & Hh).
  unfold nowrap in Hnw. unfold rotate_backward.
  pose proof (phys_range q (-1) Hpos) as Hpr.
  assert (Hback : Back q = arr_at (m_CircleQ q) (phys q (-1))).
  { unfold Back. rewrite Back_slot_Some by done. simpl.
    rewrite wrap_small by lia. f_equal. apply (mod_shift _ _ 2). lia. }
  destruct (Back_is_Some q Hpos) as [x Hx]. rewrite Hx. simpl.
  rewrite Hx in Hback. symmetry in Hback.
  rewrite PopBack_nonempty by (done || lia). simpl.
  set (q1 := mkCacheQueue (m_CircleQ q) (m_Head q) (m_CurrSize q - 1)).
  assert (Hcap1 : Capacity q1 = Capacity q) by done.
  destruct (decide (Capacity q = 1)) as [H1|Hn1].
  - rewrite PushHead_empty by (rewrite ?Hcap1; simpl; lia).
    assert (phys q (-1) = 0) as Hp by lia. rewrite Hp in *. simpl.
    do 2 f_equal; [|lia]. by apply (arr_at_store_id _ 0).
  - rewrite PushHead_nonempty by (rewrite ?Hcap1; simpl; lia).
    assert (Hslot : head_pred q1 = phys q (-1)).
    { unfold head_pred. rewrite Hcap1. simpl.
      rewrite wrap_small by lia. apply (mod_shift _ _ 1). lia. }
    rewrite Hslot, Hcap1. simpl.
    rewrite (arr_at_store_id _ _ _ (proj1 Hpr) Hback).
    replace (m_CurrSize q - 1 + 1) with (m_CurrSize q) by lia.
    rewrite wrap_small, Z.min_l by lia. done.
Qed.

Lemma loop_full (body : CacheQueue A → option (CacheQueue A)) (d : Z) (n : nat) :
  (∀ q, wf q → nowrap q → 0 < Capacity q → m_CurrSize q = Capacity q →
        body q = Some (mkCacheQueue (m_CircleQ q) (phys q d) (m_CurrSize q))) →
  ∀ q, wf q → nowrap q → 0 < Capacity q → m_CurrSize q = Capacity q →
    loop n body q =
      Some (mkCacheQueue (m_CircleQ q) (phys q (Z.of_nat n * d))
              (m_CurrSize q)).
Proof.
  intros Hbody. induction n as [|n IH]; intros q Hwf Hnw Hpos Hfull.
  - simpl. rewrite phys_0 by done. by rewrite mk_eta.
  - simpl. rewrite Hbody by done. simpl.
    pose proof Hwf as (HN & Hs & Hh0 & Hh).
    pose proof (phys_range q d Hpos) as Hpr.
    destruct (wf_mk q (m_CircleQ q) (phys q d) (m_CurrSize q))
      as [Hwf1 Hcap1]; [done|lia..|].
    rewrite IH; [|done|by eapply nowrap_Capacity|lia|by rewrite Hcap1].
    simpl. rewrite (phys_rebase q _ d) by done. do 3 f_equal. lia.
Qed.

(** X13 — on a full buffer [Rotate(k)] never changes a slot: every
    iteration stores the value it moves into the slot that already holds
    it, and the call as a whole only moves the head to
    [(head + k) mod N]. *)
Theorem Rotate_full_moves_head q (k : Z) :
  wf q → nowrap q → 0 < Capacity q → Full q = true →
  Int.min_signed < k ≤ Int.max_signed →
  Rotate q k =
    Some (mkCacheQueue (m_CircleQ q) ((m_Head q + k) mod Capacity q)
            (m_CurrSize q)).
Proof.
  intros Hwf Hnw Hpos Hfull%Full_wf_size Hk.
  pose proof Hwf as (HN & Hs & Hh0 & Hh).
  unfold Rotate. rewrite Empty_false, int_abs_small by (done || lia). simpl.
  case_bool_decide as Hz; simpl.
  - assert (k = 0) as -> by lia. fold (phys q 0).
    rewrite phys_0 by done. by rewrite mk_eta.
  - case_bool_decide as Hp.
    + rewrite (loop_full _ 1) by (done || apply rotate_forward_full).
      do 3 f_equal. unfold phys. f_equal. lia.
    + rewrite (loop_full _ (-1)) by (done || apply rotate_backward_full).
      do 3 f_equal. unfold phys. f_equal. lia.
Qed.

End rotation_more.

Section model.
Context {A : Type}.
Implicit Types (q : CacheQueue A) (u x : A) (c l : list A).

Lemma apply_op_model q (o : op A) :
  wf q → nowrap q → 0 < Capacity q → valid_op o →
  ∃ q', apply_op q o = Some q' ∧ wf q' ∧ Capacity q' = Capacity q ∧
        elements q' = model_op (Z.to_nat (Capacity q)) (elements q) o.
Proof.
  intros Hwf Hnw Hpos Hv. pose proof Hwf as (HN & Hs & Hh0 & Hh).
  pose proof (length_elements q Hwf) as Hlen. unfold Length, Size in Hlen.
  destruct o as [u|u| | | |k]; simpl in *.
  - destruct (PushHead_spec q u) as (q' & Hq' & Hwf' & Hcap & _ & He);
      [done..|].
    exists q'. split_and!; [done..|]. rewrite He. do 2 f_equal. lia.
  - destruct (PushBack_spec q u) as (q' & Hq' & Hwf' & Hcap & _ & He);
      [done..|].
    exists q'. split_and!; [done..|]. rewrite He.
    repeat case_decide; (done || lia).
  - destruct (PopHead_spec q) as (q' & Hq' & Hwf' & Hcap & _ & He); [done..|].
    by exists q'.
  - destruct (PopBack_spec q) as (q' & Hq' & Hwf' & Hcap & _ & He); [done..|].
    exists q'. split_and!; [done..|]. rewrite He. f_equal. lia.
  - destruct (Clear_spec q) as (q' & Hq' & Hwf' & Hcap & _ & He); [done|].
    by exists q'.
  - destruct (decide (m_CurrSize q = 0)) as [He|Hne].
    + exists q. unfold Rotate. rewrite Empty_true by done. simpl.
      split_and!; [done..|]. rewrite (elements_empty q He).
      unfold rotate. by rewrite drop_nil, take_nil.
    + destruct (Rotate_spec q k) as (q' & Hq' & [Hwf' Hcap] & _ & He);
        [done..|].
      exists q'. split_and!; [done..|]. rewrite He, Hlen.
      by rewrite Z2Nat.id by lia.
Qed.

Lemma run_refines (q : CacheQueue A) (ops : list (op A)) :
  wf q → nowrap q → 0 < Capacity q → Forall valid_op ops →
  ∃ q', run q ops = Some q' ∧ wf q' ∧ Capacity q' = Capacity q ∧
        elements q' =
          fold_left (model_op (Z.to_nat (Capacity q))) ops (elements q).
Proof.
  intros Hwf Hnw Hpos Hops. revert q Hwf Hnw Hpos.
  induction Hops as [|o ops Ho Hops IH]; intros q Hwf Hnw Hpos.
  - by exists q.
  - destruct (apply_op_model q o) as (q1 & Hq1 & Hwf1 & Hcap1 & He1);
      [done..|].
    destruct (IH q1) as (q2 & Hq2 & Hwf2 & Hcap2 & He2);
      [done|by eapply nowrap_Capacity|lia|].
    exists q2. simpl. rewrite Hq1. simpl.
    split_and!; [done|done|congruence|]. by rewrite He2, Hcap1, He1.
Qed.

(** X14 — the class implements the bounded double-ended queue: on a
    well-formed buffer every sequence of calls returns, and the logical
    content it leaves is the one obtained by applying the list operations
    ([model_op]) to the content it started from; head position and stale
    slots play no part. *)
Theorem run_model q (ops : list (op A)) :
  wf q → nowrap q → 0 < Capacity q → Forall valid_op ops →
  ∃ q', run q ops = Some q' ∧
        elements q' =
          fold_left (model_op (Z.to_nat (Capacity q))) ops (elements q) ∧
        Z.of_nat (length (elements q')) = Length q'.
Proof.
  intros Hwf Hnw Hpos Hops.
  destruct (run_refines q ops) as (q' & Hq' & Hwf' & _ & He); [done..|].
  exists q'. split_and!; [done..|].
  rewrite length_elements by done. destruct Hwf' as (_ & ? & _).
  unfold Length, Size. lia.
Qed.

(** X15 — only the logical content matters: two buffers of the same
    capacity that hold the same elements in the same order, wherever their
    heads are and whatever their unused slots hold, hold equal content
    after any common sequence of calls. *)
Theorem content_determines_content q1 q2 (ops : list (op A)) :
  wf q1 → wf q2 → nowrap q1 → 0 < Capacity q1 →
  Capacity q2 = Capacity q1 → elements q2 = elements q1 →
  Forall valid_op ops →
  ∃ q1' q2', run q1 ops = Some q1' ∧ run q2 ops = Some q2' ∧
             elements q2' = elements q1' ∧ Length q2' = Length q1'.
Proof.
  intros Hwf1 Hwf2 Hnw Hpos Hcap He Hops.
  destruct (run_refines q1 ops) as (q1' & Hr1 & Hwf1' & _ & He1); [done..|].
  destruct (run_refines q2 ops) as (q2' & Hr2 & Hwf2' & _ & He2);
    [done|by eapply nowrap_Capacity|lia|done|].
  exists q1', q2'. split_and!; [done|done|congruence|].
  pose proof (length_elements q1' Hwf1') as Hl1.
  pose proof (length_elements q2' Hwf2') as Hl2.
  destruct Hwf1' as (_ & ? & _). destruct Hwf2' as (_ & ? & _).
  assert (He' : elements q2' = elements q1') by congruence.
  rewrite He' in Hl2. unfold Length, Size in *. lia.
Qed.

Lemma model_PushBack_all (N : nat) (xs l : list A) :
  (0 < N)%nat → (length l ≤ N)%nat →
  fold_left (model_op N) (OpPushBack <$> xs) l =
    drop (length (l ++ xs) - N) (l ++ xs).
Proof.
  intros HN. revert l. induction xs as [|x xs IH]; intros l Hl.
  - simpl. rewrite app_nil_r.
    by replace (length l - N)%nat with 0%nat by lia.
  - simpl. case_decide as Hfull.
    + rewrite IH by (rewrite length_app, length_drop; simpl; lia).
      assert (Hd : (drop 1 l ++ [x]) ++ xs = drop 1 (l ++ x :: xs)).
      { rewrite drop_app_le by lia. by rewrite <- (assoc_L (++)). }
      rewrite Hd, drop_drop, length_drop. f_equal.
      rewrite length_app. simpl. lia.
    + rewrite IH by (rewrite length_app; simpl; lia).
      by rewrite <- (assoc_L (++)).
Qed.

Lemma model_PushHead_all (N : nat) (xs l : list A) :
  (0 < N)%nat → (length l ≤ N)%nat →
  fold_left (model_op N) (OpPushHead <$> xs) l = take N (reverse xs ++ l).
Proof.
  intros HN. revert l. induction xs as [|x xs IH]; intros l Hl.
  - simpl. by rewrite take_ge.
  - simpl. rewrite IH by (rewrite length_cons, length_take; lia).
    rewrite reverse_cons, <- (assoc_L (++)). simpl.
    rewrite !take_app. f_equal.
    destruct (N - length (reverse xs))%nat as [|m] eqn:Hm; [done|].
    simpl. f_equal. rewrite take_take. f_equal. lia.
Qed.

Lemma Forall_valid_pushes (xs : list A) :
  Forall valid_op (OpPushBack <$> xs) ∧ Forall valid_op (OpPushHead <$> xs).
Proof. split; by apply Forall_fmap, Forall_true. Qed.

(** X16 — sliding window: [PushBack] of the values [xs], one after the
    other, leaves the last [N] elements of the old content followed by
    [xs]; on a fresh buffer these are the [N] most recent values.
    [PushHead] of [xs] leaves the first [N] elements of [xs] reversed
    followed by the old content. *)
Theorem sliding_window q (xs : list A) :
  wf q → nowrap q → 0 < Capacity q →
  (∃ q', run q (OpPushBack <$> xs) = Some q' ∧
         elements q' =
           drop (length (elements q ++ xs) - Z.to_nat (Capacity q))
             (elements q ++ xs)) ∧
  (∃ q', run q (OpPushHead <$> xs) = Some q' ∧
         elements q' =
           take (Z.to_nat (Capacity q)) (reverse xs ++ elements q)).
Proof.
  intros Hwf Hnw Hpos. pose proof Hwf as (HN & Hs & Hh0 & Hh).
  pose proof (length_elements q Hwf) as Hlen. unfold Length, Size in Hlen.
  destruct (Forall_valid_pushes xs) as [Hvb Hvh]. split.
  - destruct (run_refines q (OpPushBack <$> xs)) as (q' & Hq' & _ & _ & He);
      [done..|].
    exists q'. split; [done|]. rewrite He. apply model_PushBack_all; lia.
  - destruct (run_refines q (OpPushHead <$> xs)) as (q' & Hq' & _ & _ & He);
      [done..|].
    exists q'. split; [done|]. rewrite He. apply model_PushHead_all; lia.
Qed.

(** X17 — [Clear()] gives back a buffer that behaves like a freshly
    constructed one of the same capacity: it is empty, and after any
    sequence of calls both hold the same content, although the storage of
    the cleared buffer still holds the old values. *)
Theorem Clear_like_fresh q (d : A) (ops : list (op A)) :
  wf q → nowrap q → 0 < Capacity q → Forall valid_op ops →
  ∃ qc q1 q2, Clear q = Some qc ∧ Empty qc = true ∧
              m_CircleQ qc = m_CircleQ q ∧
              run qc ops = Some q1 ∧
              run (init (Z.to_nat (Capacity q)) d) ops = Some q2 ∧
              elements q1 = elements q2.
Proof.
  intros Hwf Hnw Hpos Hops. pose proof Hwf as (HN & Hs & Hh0 & Hh).
  destruct (Clear_spec q Hwf) as (qc & Hqc & Hwfc & Hcapc & Hsc & Hec).
  assert (Hst : m_CircleQ qc = m_CircleQ q).
  { unfold Clear in Hqc. by injection Hqc as <-. }
  assert (Hcapi : Capacity (init (Z.to_nat (Capacity q)) d) = Capacity q).
  { rewrite Capacity_init. lia. }
  destruct (run_refines qc ops) as (q1 & Hq1 & _ & _ & He1);
    [done|by eapply nowrap_Capacity|lia|done|].
  destruct (run_refines (init (Z.to_nat (Capacity q)) d) ops)
    as (q2 & Hq2 & _ & _ & He2);
    [apply wf_init; lia|by eapply nowrap_Capacity|lia|done|].
  exists qc, q1, q2.
  split_and!; [done|by apply Empty_true|done|done|done|].
  rewrite Hcapc, Hec in He1.
  rewrite Hcapi, (elements_empty (init _ d)) in He2 by done.
  congruence.
Qed.

(** X18 — what overwriting is: on a full buffer [PushBack(x)] reaches
    exactly the state that [PopHead()] followed by [PushBack(x)] reaches,
    and [PushHead(x)] the state that [PopBack()] followed by [PushHead(x)]
    reaches. *)
Theorem full_push_is_pop_push q x :
  wf q → nowrap q → 0 < Capacity q → Full q = true →
  PushBack q x = (q1 ← PopHead q; PushBack q1 x) ∧
  PushHead q x = (q1 ← PopBack q; PushHead q1 x) ∧
  is_Some (PushBack q x) ∧ is_Some (PushHead q x).
Proof.
  intros Hwf Hnw Hpos Hfull%Full_wf_size.
  pose proof Hwf as (HN & Hs & Hh0 & Hh). unfold nowrap in Hnw.
  assert (Hb : PushBack q x = (q1 ← PopHead q; PushBack q1 x)).
  { rewrite PushBack_full, PopHead_nonempty by (done || lia). simpl.
    set (q1 := mkCacheQueue (m_CircleQ q) ((m_Head q + 1) mod Capacity q)
                 (m_CurrSize q - 1)).
    assert (Hcap1 : Capacity q1 = Capacity q) by done.
    destruct (decide (Capacity q = 1)) as [H1|Hn1].
    - rewrite PushBack_empty by (rewrite ?Hcap1; simpl; lia). simpl.
      assert (m_Head q = 0) as -> by lia.
      rewrite H1, Hfull, H1. done.
    - rewrite PushBack_room by (rewrite ?Hcap1; simpl; lia).
      assert (Hslot : back_next q1 = m_Head q).
      { unfold back_next. rewrite Hcap1. simpl.
        rewrite wrap_small
          by (pose proof (Z.mod_pos_bound (m_Head q + 1) (Capacity q)); lia).
        rewrite Zplus_mod_idemp_l.
        rewrite (mod_shift _ (m_Head q) 1) by lia. apply Z.mod_small. lia. }
      rewrite Hslot, Hcap1. simpl.
      replace (m_CurrSize q - 1 + 1) with (m_CurrSize q) by lia.
      rewrite wrap_small, Z.min_l by lia. done. }
  assert (Hh' : PushHead q x = (q1 ← PopBack q; PushHead q1 x)).
  { rewrite PushHead_nonempty, PopBack_nonempty by (done || lia). simpl.
    set (q1 := mkCacheQueue (m_CircleQ q) (m_Head q) (m_CurrSize q - 1)).
    assert (Hcap1 : Capacity q1 = Capacity q) by done.
    rewrite (wrap_small (m_CurrSize q + 1)), Z.min_r by lia.
    destruct (decide (Capacity q = 1)) as [H1|Hn1].
    - rewrite PushHead_empty by (rewrite ?Hcap1; simpl; lia). simpl.
      pose proof (head_pred_range q Hpos).
      assert (head_pred q = 0) as -> by lia. by rewrite H1.
    - rewrite PushHead_nonempty by (rewrite ?Hcap1; simpl; lia).
      assert (Hslot : head_pred q1 = head_pred q) by done.
      rewrite Hslot, Hcap1. simpl.
      replace (m_CurrSize q - 1 + 1) with (m_CurrSize q) by lia.
      rewrite wrap_small, Z.min_l by lia. by rewrite Hfull. }
  split_and!; [done|done| |].
  - rewrite PushBack_full by (done || lia). done.
  - rewrite PushHead_nonempty by (done || lia). done.
Qed.

End model.

(** ** Instances of the further properties *)

Ltac valid_ops :=
  repeat constructor; simpl; try exact I;
  unfold Int.min_signed, Int.max_signed; lia.

Lemma PushHead_PopHead_witness :
  ∃ q1 q2, PushHead (mkCacheQueue [1; 2; 0] 0 2) 7 = Some q1 ∧ PopHead q1 = Some q2 ∧
           Length q2 = Length (mkCacheQueue [1; 2; 0] 0 2) ∧ elements q2 = elements (mkCacheQueue [1; 2; 0] 0 2).
Proof.
  apply (PushHead_PopHead (mkCacheQueue [1; 2; 0] 0 2) 7);
    [concrete_state | concrete_state | reflexivity].
Defined.

Lemma Head_Back_ends_witness :
  (∃ x, Head (mkCacheQueue [4; 2; 3] 1 3) = Some x ∧ elements (mkCacheQueue [4; 2; 3] 1 3) !! 0%nat = Some x ∧
        at_ (mkCacheQueue [4; 2; 3] 1 3) 0 = Some x) ∧
  (∃ y, Back (mkCacheQueue [4; 2; 3] 1 3) = Some y ∧
        elements (mkCacheQueue [4; 2; 3] 1 3) !! (length (elements (mkCacheQueue [4; 2; 3] 1 3)) - 1)%nat = Some y ∧
        at_ (mkCacheQueue [4; 2; 3] 1 3) (Length (mkCacheQueue [4; 2; 3] 1 3) - 1) = Some y).
Proof.
  apply (Head_Back_ends (mkCacheQueue [4; 2; 3] 1 3));
    [concrete_state | concrete_state | concrete_state].
Defined.

Lemma push_observed_witness :
  (∃ q', PushBack (mkCacheQueue [4; 2; 3] 1 3) 5 = Some q' ∧ Empty q' = false ∧ Back q' = Some 5) ∧
  (∃ q', PushHead (mkCacheQueue [4; 2; 3] 1 3) 5 = Some q' ∧ Empty q' = false ∧ Head q' = Some 5).
Proof.
  apply (push_observed (mkCacheQueue [4; 2; 3] 1 3) 5);
    [concrete_state | concrete_state | concrete_state].
Defined.

Lemma pop_content_witness :
  (∃ q', PopHead (mkCacheQueue [4; 2; 3] 1 3) = Some q' ∧ elements q' = drop 1 (elements (mkCacheQueue [4; 2; 3] 1 3)) ∧
         Length q' = Z.max (Length (mkCacheQueue [4; 2; 3] 1 3) - 1) 0 ∧
         m_CircleQ q' = m_CircleQ (mkCacheQueue [4; 2; 3] 1 3)) ∧
  (∃ q', PopBack (mkCacheQueue [4; 2; 3] 1 3) = Some q' ∧
         elements q' = take (length (elements (mkCacheQueue [4; 2; 3] 1 3)) - 1) (elements (mkCacheQueue [4; 2; 3] 1 3)) ∧
         Length q' = Z.max (Length (mkCacheQueue [4; 2; 3] 1 3) - 1) 0 ∧
         m_CircleQ q' = m_CircleQ (mkCacheQueue [4; 2; 3] 1 3) ∧ HeadOff q' = HeadOff (mkCacheQueue [4; 2; 3] 1 3)) ∧
  (Empty (mkCacheQueue [4; 2; 3] 1 3) = true → PopHead (mkCacheQueue [4; 2; 3] 1 3) = Some (mkCacheQueue [4; 2; 3] 1 3) ∧ PopBack (mkCacheQueue [4; 2; 3] 1 3) = Some (mkCacheQueue [4; 2; 3] 1 3)).
Proof.
  apply (pop_content (mkCacheQueue [4; 2; 3] 1 3)); [concrete_state | concrete_state].
Defined.

Lemma push_with_room_witness :
  (∃ q', PushBack (mkCacheQueue [1; 2; 0] 0 2) 7 = Some q' ∧ elements q' = elements (mkCacheQueue [1; 2; 0] 0 2) ++ [7] ∧
         Length q' = Length (mkCacheQueue [1; 2; 0] 0 2) + 1) ∧
  (∃ q', PushHead (mkCacheQueue [1; 2; 0] 0 2) 7 = Some q' ∧ elements q' = 7 :: elements (mkCacheQueue [1; 2; 0] 0 2) ∧
         Length q' = Length (mkCacheQueue [1; 2; 0] 0 2) + 1).
Proof.
  apply (push_with_room (mkCacheQueue [1; 2; 0] 0 2) 7);
    [concrete_state | concrete_state | reflexivity].
Defined.

Lemma Capacity_constant_witness :
  Capacity (mkCacheQueue [1; 0; 0] 0 1) = Capacity (init 3 0) ∧
  ∀ q'', Reset (mkCacheQueue [1; 0; 0] 0 1) = Some q'' →
         Capacity q'' = Capacity (init 3 0).
Proof.
  apply (Capacity_constant (init 3 0) [OpPushBack 1; OpRotate 1]
           (mkCacheQueue [1; 0; 0] 0 1)).
  reflexivity.
Defined.

Lemma Reset_outside_contract_witness :
  std_rotate (m_CircleQ (mkCacheQueue [4; 2; 3] 1 3)) 0 (Capacity (mkCacheQueue [4; 2; 3] 1 3)) (m_Head (mkCacheQueue [4; 2; 3] 1 3)) = None ∧
  Reset (mkCacheQueue [4; 2; 3] 1 3) = None.
Proof.
  apply (Reset_outside_contract (mkCacheQueue [4; 2; 3] 1 3)); [concrete_state | concrete_state].
Defined.

Lemma zero_capacity_witness :
  PushHead (init (A:=Z) 0 0) 1 = None ∧ PushBack (init (A:=Z) 0 0) 1 = None ∧
  Head (init (A:=Z) 0 0) = None ∧ Back (init (A:=Z) 0 0) = None ∧
  PopHead (init (A:=Z) 0 0) = Some (init (A:=Z) 0 0) ∧ PopBack (init (A:=Z) 0 0) = Some (init (A:=Z) 0 0) ∧
  Rotate (init (A:=Z) 0 0) 3 = Some (init (A:=Z) 0 0).
Proof.
  apply (zero_capacity (init (A:=Z) 0 0) 1 3); [concrete_state | reflexivity].
Defined.

Lemma index_negative_offset_witness :
  index_slot (mkCacheQueue [4; 2; 3] 1 3) (SizeT.wrap (- 2)) =
    Some ((m_Head (mkCacheQueue [4; 2; 3] 1 3) - 2) mod Capacity (mkCacheQueue [4; 2; 3] 1 3)) ∧
  index_slot (mkCacheQueue [4; 2; 3] 1 3) (SizeT.wrap (- 1)) = Some (head_pred (mkCacheQueue [4; 2; 3] 1 3)).
Proof.
  apply (index_negative_offset (mkCacheQueue [4; 2; 3] 1 3) 2);
    [concrete_state | concrete_state | concrete_state].
Defined.

Lemma Rotate_shifts_witness :
  ∃ q', Rotate (mkCacheQueue [9; 3; 4; 0] 0 3) (-2) = Some q' ∧ Length q' = Length (mkCacheQueue [9; 3; 4; 0] 0 3) ∧
        Capacity q' = Capacity (mkCacheQueue [9; 3; 4; 0] 0 3) ∧
        elements q' = rotate (Z.to_nat ((-2) mod Length (mkCacheQueue [9; 3; 4; 0] 0 3))) (elements (mkCacheQueue [9; 3; 4; 0] 0 3)).
Proof.
  apply (Rotate_shifts (mkCacheQueue [9; 3; 4; 0] 0 3) (-2));
    [concrete_state | concrete_state | concrete_state | concrete_state].
Defined.

Lemma Rotate_compose_witness :
  ∃ q1 q2 q3, Rotate (mkCacheQueue [9; 3; 4; 0] 0 3) 2 = Some q1 ∧ Rotate q1 (-5) = Some q2 ∧
              Rotate (mkCacheQueue [9; 3; 4; 0] 0 3) (2 + -5) = Some q3 ∧ elements q2 = elements q3.
Proof.
  apply (Rotate_compose (mkCacheQueue [9; 3; 4; 0] 0 3) 2 (-5));
    [concrete_state | concrete_state | concrete_state | concrete_state
    | concrete_state | concrete_state].
Defined.

Lemma Rotate_full_moves_head_witness :
  Rotate (mkCacheQueue [4; 2; 3] 1 3) (-4) =
    Some (mkCacheQueue (m_CircleQ (mkCacheQueue [4; 2; 3] 1 3)) ((m_Head (mkCacheQueue [4; 2; 3] 1 3) + -4) mod Capacity (mkCacheQueue [4; 2; 3] 1 3))
            (m_CurrSize (mkCacheQueue [4; 2; 3] 1 3))).
Proof.
  apply (Rotate_full_moves_head (mkCacheQueue [4; 2; 3] 1 3) (-4));
    [concrete_state | concrete_state | concrete_state | reflexivity
    | concrete_state].
Defined.

Lemma run_model_witness :
  ∃ q', run (mkCacheQueue [9; 3; 4; 0] 0 3) [OpPushBack 1; OpRotate (-1); OpPopHead] = Some q' ∧
        elements q' =
          fold_left (model_op (Z.to_nat (Capacity (mkCacheQueue [9; 3; 4; 0] 0 3))))
            [OpPushBack 1; OpRotate (-1); OpPopHead] (elements (mkCacheQueue [9; 3; 4; 0] 0 3)) ∧
        Z.of_nat (length (elements q')) = Length q'.
Proof.
  apply (run_model (mkCacheQueue [9; 3; 4; 0] 0 3) [OpPushBack 1; OpRotate (-1); OpPopHead]);
    [concrete_state | concrete_state | concrete_state | valid_ops].
Defined.

Lemma content_determines_content_witness :
  ∃ q1' q2', run (mkCacheQueue [9; 3; 4; 0] 0 3) [OpPushHead 5; OpRotate 2; OpPopBack] = Some q1' ∧
             run (mkCacheQueue [4; 7; 9; 3] 2 3) [OpPushHead 5; OpRotate 2; OpPopBack] = Some q2' ∧
             elements q2' = elements q1' ∧ Length q2' = Length q1'.
Proof.
  apply (content_determines_content (mkCacheQueue [9; 3; 4; 0] 0 3) (mkCacheQueue [4; 7; 9; 3] 2 3)
           [OpPushHead 5; OpRotate 2; OpPopBack]);
    [concrete_state | concrete_state | concrete_state | concrete_state
    | reflexivity | reflexivity | valid_ops].
Defined.

Lemma sliding_window_witness :
  (∃ q', run (mkCacheQueue [9; 3; 4; 0] 0 3) (OpPushBack <$> [5; 6]) = Some q' ∧
         elements q' =
           drop (length (elements (mkCacheQueue [9; 3; 4; 0] 0 3) ++ [5; 6]) - Z.to_nat (Capacity (mkCacheQueue [9; 3; 4; 0] 0 3)))
             (elements (mkCacheQueue [9; 3; 4; 0] 0 3) ++ [5; 6])) ∧
  (∃ q', run (mkCacheQueue [9; 3; 4; 0] 0 3) (OpPushHead <$> [5; 6]) = Some q' ∧
         elements q' =
           take (Z.to_nat (Capacity (mkCacheQueue [9; 3; 4; 0] 0 3))) (reverse [5; 6] ++ elements (mkCacheQueue [9; 3; 4; 0] 0 3))).
Proof.
  apply (sliding_window (mkCacheQueue [9; 3; 4; 0] 0 3) [5; 6]);
    [concrete_state | concrete_state | concrete_state].
Defined.

Lemma Clear_like_fresh_witness :
  ∃ qc q1 q2, Clear (mkCacheQueue [4; 2; 3] 1 3) = Some qc ∧ Empty qc = true ∧
              m_CircleQ qc = m_CircleQ (mkCacheQueue [4; 2; 3] 1 3) ∧
              run qc [OpPushBack 1; OpPushHead 2] = Some q1 ∧
              run (init (Z.to_nat (Capacity (mkCacheQueue [4; 2; 3] 1 3))) 0)
                [OpPushBack 1; OpPushHead 2] = Some q2 ∧
              elements q1 = elements q2.
Proof.
  apply (Clear_like_fresh (mkCacheQueue [4; 2; 3] 1 3) 0 [OpPushBack 1; OpPushHead 2]);
    [concrete_state | concrete_state | concrete_state | valid_ops].
Defined.

Lemma full_push_is_pop_push_witness :
  PushBack (mkCacheQueue [4; 2; 3] 1 3) 5 = (q1 ← PopHead (mkCacheQueue [4; 2; 3] 1 3); PushBack q1 5) ∧
  PushHead (mkCacheQueue [4; 2; 3] 1 3) 5 = (q1 ← PopBack (mkCacheQueue [4; 2; 3] 1 3); PushHead q1 5) ∧
  is_Some (PushBack (mkCacheQueue [4; 2; 3] 1 3) 5) ∧ is_Some (PushHead (mkCacheQueue [4; 2; 3] 1 3) 5).
Proof.
  apply (full_push_is_pop_push (mkCacheQueue [4; 2; 3] 1 3) 5);
    [concrete_state | concrete_state | concrete_state | reflexivity].
Defined.

(** ** Forward rotation of a full buffer, iteration by iteration *)

Section rotation_full.
Context {A : Type}.
Implicit Types (q : CacheQueue A) (u x : A) (c l : list A).

(** C4 — rotating a full buffer forward.  [Rotate(k)] with [k > 0] on a
    full buffer returns the content shifted cyclically to the left by [k],
    a permutation of the original, with the length still [N].  The reason is
    the order of the calls.  In every state a forward [Rotate] is the loop
    body run [k] times, and the body is [Head()], then [PopHead()], then
    [PushBack] of the value read.  At every iteration of the run on the full
    buffer the state is full again, [PopHead()] leaves [N - 1] elements, so
    the [PushBack] that follows does not find the buffer full: it appends
    the value after the remaining elements and discards nothing. *)
Theorem Rotate_full_preserves q (k : Z) :
  wf q → nowrap q → 0 < Capacity q → Full q = true →
  0 < k ≤ Int.max_signed →
  (∃ q', Rotate q k = Some q' ∧
         elements q' = rotate (Z.to_nat k) (elements q) ∧
         elements q' ≡ₚ elements q ∧
         Length q' = Capacity q) ∧
  (∀ (s : CacheQueue A) (n : Z),
     Empty s = false → 0 < n ≤ Int.max_signed →
     Rotate s n = loop (Z.to_nat n) rotate_forward s) ∧
  (∀ s : CacheQueue A,
     rotate_forward s = (stHead ← Head s; s1 ← PopHead s; PushBack s1 stHead)) ∧
  (∀ j : nat, (j < Z.to_nat k)%nat →
     ∃ qj x p qj',
       loop j rotate_forward q = Some qj ∧ Full qj = true ∧
       Head qj = Some x ∧ elements qj !! 0%nat = Some x ∧
       PopHead qj = Some p ∧ Length p = Capacity q - 1 ∧ Full p = false ∧
       elements p = drop 1 (elements qj) ∧
       PushBack p x = Some qj' ∧ elements qj' = elements p ++ [x] ∧
       Length qj' = Capacity q ∧ Full qj' = true ∧
       loop (S j) rotate_forward q = Some qj').
Proof.
  intros Hwf Hnw Hpos Hfull%Full_wf_size Hk.
  pose proof Hwf as (HN & Hs & Hh0 & Hh).
  pose proof (length_elements q Hwf) as Hlen. unfold Length, Size in Hlen.
  split_and!.
  - destruct (Rotate_spec q k) as (q' & Hq' & _ & Hs' & He);
      [done|done|lia|unfold Int.min_signed, Int.max_signed in *; lia|].
    assert (Hrot : elements q' = rotate (Z.to_nat k) (elements q)).
    { rewrite He. apply rotate_congr.
      rewrite Hlen, !Z2Nat.id by (try apply Z.mod_pos; lia).
      by rewrite Z.mod_mod by lia. }
    exists q'. split_and!; [done|done| |unfold Length, Size; lia].
    rewrite Hrot. apply rotate_Permutation.
  - intros s n He Hn. unfold Rotate. rewrite He. simpl.
    rewrite int_abs_small
      by (unfold Int.min_signed, Int.max_signed in *; lia).
    rewrite bool_decide_eq_false_2, bool_decide_eq_true_2 by lia. simpl.
    f_equal. lia.
  - done.
  - intros j Hj.
    pose proof (loop_full rotate_forward 1 j rotate_forward_full q
                  Hwf Hnw Hpos Hfull) as Hqj.
    set (qj := mkCacheQueue (m_CircleQ q) (phys q (Z.of_nat j * 1))
                 (m_CurrSize q)) in Hqj.
    pose proof (phys_range q (Z.of_nat j * 1) Hpos) as Hpr.
    destruct (wf_mk q (m_CircleQ q) (phys q (Z.of_nat j * 1)) (m_CurrSize q))
      as [Hwfj Hcapj]; [done|lia..|]. fold qj in Hwfj, Hcapj.
    assert (Hnwj : nowrap qj) by (by eapply nowrap_Capacity).
    assert (Hsj : m_CurrSize qj = Capacity q) by done.
    destruct (Head_is_Some qj Hwfj) as [x Hx]; [lia|].
    destruct (PopHead_spec qj Hwfj Hnwj)
      as (p & Hp & Hwfp & Hcapp & Hsp & Hep).
    destruct (PushBack_spec p x Hwfp) as (qj' & Hqj' & _ & Hcap' & Hs' & He');
      [by eapply nowrap_Capacity|lia|].
    rewrite decide_False in He' by lia.
    exists qj, x, p, qj'.
    assert (Hbody : rotate_forward qj = Some qj').
    { unfold rotate_forward. rewrite Hx. simpl. rewrite Hp. done. }
    split_and!; try done.
    + apply Full_true. lia.
    + rewrite <- Head_elements by (done || lia). done.
    + unfold Length, Size. lia.
    + apply Full_false. lia.
    + unfold Length, Size. lia.
    + apply Full_true. lia.
    + clear -Hqj Hbody. revert Hqj Hbody. generalize qj. clear qj.
      revert q. induction j as [|j IH]; intros q qj Hqj Hbody.
      * simpl in *. injection Hqj as ->. by rewrite Hbody.
      * simpl in *. destruct (rotate_forward q) as [q1|]; simpl in *; [|done].
        by eapply IH.
Qed.

End rotation_full.

Lemma Rotate_full_preserves_witness :
  (∃ q', Rotate (mkCacheQueue [4; 2; 3] 1 3) 2 = Some q' ∧
         elements q' = rotate (Z.to_nat 2) (elements (mkCacheQueue [4; 2; 3] 1 3)) ∧
         elements q' ≡ₚ elements (mkCacheQueue [4; 2; 3] 1 3) ∧
         Length q' = Capacity (mkCacheQueue [4; 2; 3] 1 3)) ∧
  (∀ (s : CacheQueue Z) (n : Z),
     Empty s = false → 0 < n ≤ Int.max_signed →
     Rotate s n = loop (Z.to_nat n) rotate_forward s) ∧
  (∀ s : CacheQueue Z,
     rotate_forward s = (stHead ← Head s; s1 ← PopHead s; PushBack s1 stHead)) ∧
  (∀ j : nat, (j < Z.to_nat 2)%nat →
     ∃ qj x p qj',
       loop j rotate_forward (mkCacheQueue [4; 2; 3] 1 3) = Some qj ∧ Full qj = true ∧
       Head qj = Some x ∧ elements qj !! 0%nat = Some x ∧
       PopHead qj = Some p ∧ Length p = Capacity (mkCacheQueue [4; 2; 3] 1 3) - 1 ∧ Full p = false ∧
       elements p = drop 1 (elements qj) ∧
       PushBack p x = Some qj' ∧ elements qj' = elements p ++ [x] ∧
       Length qj' = Capacity (mkCacheQueue [4; 2; 3] 1 3) ∧ Full qj' = true ∧
       loop (S j) rotate_forward (mkCacheQueue [4; 2; 3] 1 3) = Some qj').
Proof.
  apply (Rotate_full_preserves (mkCacheQueue [4; 2; 3] 1 3) 2);
    [concrete_state | concrete_state | concrete_state | reflexivity
    | concrete_state].
Defined.
